(** * pysal.cg.locators: interval tree and bucket grid

    A shallow embedding of [IntervalTree] and [Grid] from
    [pysal/cg/locators.py], and the properties stated about them.

    Numbers are Python integers, modelled as [Z]; on integers Python 2's
    [/] is floor division, which is [Z.div].  A Python [dict] is a [gmap],
    a Python [list] is a [list]. *)

From stdpp Require Import gmap list strings.
From Stdlib Require Import ZArith Lia Sorted Permutation.

Local Open Scope Z_scope.

(** Exceptions.  The source raises a bare [Exception] with a message; the
    constructors name the message.  [KeyError] and [ValueError] are the
    ones Python's [dict] lookup and [list.remove] raise. *)
Inductive exn : Type :=
  | InvalidInterval
  | InvalidResolution
  | OutOfBounds
  | KeyError
  | ValueError.

(** What a call does: it returns, it raises, or (for the loops and
    recursions that need not terminate) it is still running when the fuel
    is spent. *)
Inductive outcome (A : Type) : Type :=
  | Returned (a : A)
  | Raised (e : exn)
  | OutOfFuel.
Arguments Returned {A} a.
Arguments Raised {A} e.
Arguments OutOfFuel {A}.

(** ** IntervalTree *)

Module IntervalTree.

Section WithPayload.
Context {payload : Type}.

(** An interval is the Python tuple [(lower, upper, item)]: [i[0]],
    [i[1]], [i[2]]. *)
Record interval : Type := Interval {
  lower : Z;
  upper : Z;
  item : payload
}.

(** [IntervalTree.Node]; [Empty] is Python's [None]. *)
Inductive Node : Type :=
  | Empty
  | MkNode (val : Z) (left_list right_list : list interval)
           (left_node right_node : Node).

(** The [while] loop of [Node.query]: the index at which the scan stops. *)
Fixpoint scan (keep : interval -> bool) (l : list interval) : nat :=
  match l with
  | [] => O
  | rec :: l' => if keep rec then S (scan keep l') else O
  end.

(** [Node.query] *)
Definition query (val : Z) (left_list right_list : list interval) (q : Z)
  : list payload :=
  if q <? val then
    let i := scan (fun rec => lower rec <=? q) left_list in
    map item (firstn i left_list)
  else
    let i := scan (fun rec => upper rec >=? q) right_list in
    map item (firstn i right_list).

(** [IntervalTree._query_range] *)
Fixpoint _query_range (q : Z * Z) (root : Node) : list payload :=
  match root with
  | Empty => []
  | MkNode val ll rl ln rn =>
      if val <? fst q then
        _query_range q rn ++ query val ll rl (fst q)
      else if val >? snd q then
        _query_range q ln ++ query val ll rl (snd q)
      else
        query val ll rl val ++ _query_range q ln ++ _query_range q rn
  end.

(** [IntervalTree._query_points]: the descent from [cur], each visited
    node's answer appended to [found]. *)
Fixpoint _query_points (cur : Node) (q : Z) : list payload :=
  match cur with
  | Empty => []
  | MkNode val ll rl ln rn =>
      query val ll rl q ++
      (if q <? val then _query_points ln q else _query_points rn q)
  end.

(** [sign], local to [_recursive_build] *)
Definition sign (x : Z) : Z :=
  if x <? 0 then -1 else if x >? 0 then 1 else 0.

(** [binary_search], local to [_recursive_build].  The loop runs while
    [l < r]; [r - l] shrinks at every turn, so [len(list)] turns are
    enough. *)
Fixpoint binary_search_loop (fuel : nat) (list : list Z) (q : Z) (l r : nat)
  : nat :=
  match fuel with
  | O => l
  | S fuel' =>
      if (l <? r)%nat then
        let m := ((l + r) / 2)%nat in
        if nth m list 0 <? q then binary_search_loop fuel' list q (m + 1)%nat r
        else binary_search_loop fuel' list q l m
      else l
  end.

Definition binary_search (list : list Z) (q : Z) : nat :=
  binary_search_loop (length list) list q O (length list).

(** [list.sort(cmp)]: Python's sort is stable, and the stable sorted
    arrangement of a list is unique; insertion from the right computes it. *)
Fixpoint sort_insert (cmp : interval -> interval -> Z) (x : interval)
    (l : list interval) : list interval :=
  match l with
  | [] => [x]
  | y :: l' => if cmp y x <? 0 then y :: sort_insert cmp x l' else x :: l
  end.

Definition sort (cmp : interval -> interval -> Z) (l : list interval)
  : list interval :=
  fold_right (sort_insert cmp) [] l.

(** [list(set(...))] followed by [sort()]: the strictly ascending list of
    the distinct values. *)
Fixpoint set_insert (x : Z) (l : list Z) : list Z :=
  match l with
  | [] => [x]
  | y :: l' =>
      if x <? y then x :: l else if x =? y then l else y :: set_insert x l'
  end.

Definition sorted_set (l : list Z) : list Z := fold_right set_insert [] l.

(** [eps = list(set([i[0] for i in intervals] + [i[1] for i in intervals]));
    eps.sort()] *)
Definition endpoints (intervals : list interval) : list Z :=
  sorted_set (map lower intervals ++ map upper intervals).

Definition centered (median : Z) (i : interval) : bool :=
  (lower i <=? median) && (median <=? upper i).

(** The endpoint lists handed to the two recursive calls. *)
Definition child_eps (intervals : list interval) (median : Z)
  : list Z * list Z :=
  let eps := endpoints intervals in
  let bp := binary_search eps median in
  (firstn bp eps, skipn bp eps).

(** [IntervalTree._recursive_build].  [None] is fuel spent: the recursion
    need not end on intervals with [lower > upper]. *)
Fixpoint _recursive_build (fuel : nat) (intervals : list interval)
    (eps : list Z) : option Node :=
  match fuel with
  | O => None
  | S fuel' =>
      match eps with
      | [] => Some Empty
      | _ :: _ =>
          let median := nth (length eps / 2)%nat eps 0 in
          let hit_is := List.filter (centered median) intervals in
          let rem_is :=
            List.filter (fun i => negb (centered median i)) intervals in
          let left_list :=
            sort (fun a b => sign (lower a - lower b)) hit_is in
          let right_list :=
            sort (fun a b => sign (upper b - upper a)) hit_is in
          let '(left_eps, right_eps) := child_eps intervals median in
          match _recursive_build fuel' rem_is left_eps,
                _recursive_build fuel' rem_is right_eps with
          | Some ln, Some rn =>
              Some (MkNode median left_list right_list ln rn)
          | _, _ => None
          end
      end
  end.

(** The object: [root] is [None] until [_build] assigns [self.root]. *)
Record t : Type := Tree { root : option Node }.

(** [IntervalTree._build], as a transition of [self]. *)
Definition _build (fuel : nat) (self : t) (intervals : list interval)
  : t * outcome unit :=
  let bad_is := List.filter (fun i => lower i >? upper i) intervals in
  match bad_is with
  | _ :: _ => (self, Raised InvalidInterval)
  | [] =>
      let eps := endpoints intervals in
      match _recursive_build fuel intervals eps with
      | Some node => (Tree (Some node), Returned tt)
      | None => (self, OutOfFuel)
      end
  end.

(** [IntervalTree.__init__] *)
Definition __init__ (fuel : nat) (intervals : list interval)
  : t * outcome unit :=
  _build fuel (Tree None) intervals.

(** A query argument is a number or a pair of numbers. *)
Inductive query_arg : Type :=
  | Point (q : Z)
  | Range (q : Z * Z).

(** [IntervalTree.query], on a built tree. *)
Definition tree_query (root : Node) (q : query_arg) : list payload :=
  match q with
  | Range r => _query_range r root
  | Point p => _query_points root p
  end.

(** *** Vocabulary of the properties *)

(** [lower <= q <= upper] *)
Definition contains (iv : interval) (q : Z) : Prop := lower iv <= q <= upper iv.

(** the batch passes the check of [_build] *)
Definition valid (intervals : list interval) : Prop :=
  Forall (fun i => lower i <= upper i) intervals.

(** [eps[len(eps)/2]] *)
Definition median_of (eps : list Z) : Z := nth (length eps / 2)%nat eps 0.

(** [hit_is] and [rem_is] after the loop over [intervals] *)
Definition hit_of (median : Z) (intervals : list interval) : list interval :=
  List.filter (centered median) intervals.

Definition rem_of (median : Z) (intervals : list interval) : list interval :=
  List.filter (fun i => negb (centered median i)) intervals.

(** [not (upper < lo or lower > hi)] *)
Definition overlaps (iv : interval) (lo hi : Z) : Prop :=
  ~ (upper iv < lo \/ lower iv > hi).

(** The value at the root of a node; [None] for the empty tree. *)
Definition node_val (n : Node) : option Z :=
  match n with
  | Empty => None
  | MkNode val _ _ _ _ => Some val
  end.

(** *** The build as the specification words it

    These two definitions follow the specification, not the source; they
    are what the source is compared with. *)

(** "the lower-middle element" of an even-length list *)
Definition lower_middle (eps : list Z) : Z :=
  nth (length eps / 2 - 1)%nat eps 0.

(** "Recompute the endpoint set from the remaining intervals (not the
    original full set)": the build with the endpoints of [rem_is] in the
    place of those of [intervals]. *)
Fixpoint spec_recursive_build (fuel : nat) (intervals : list interval)
    (eps : list Z) : option Node :=
  match fuel with
  | O => None
  | S fuel' =>
      match eps with
      | [] => Some Empty
      | _ :: _ =>
          let median := median_of eps in
          let hit_is := hit_of median intervals in
          let rem_is := rem_of median intervals in
          let left_list :=
            sort (fun a b => sign (lower a - lower b)) hit_is in
          let right_list :=
            sort (fun a b => sign (upper b - upper a)) hit_is in
          let '(left_eps, right_eps) := child_eps rem_is median in
          match spec_recursive_build fuel' rem_is left_eps,
                spec_recursive_build fuel' rem_is right_eps with
          | Some ln, Some rn =>
              Some (MkNode median left_list right_list ln rn)
          | _, _ => None
          end
      end
  end.

(** *** More vocabulary *)

(** [lower <= q <= upper], as a test *)
Definition containsb (q : Z) (iv : interval) : bool :=
  (lower iv <=? q) && (q <=? upper iv).

(** The shape of a node: its two lists hold the same intervals, all
    around [val], the left one ascending by lower bound and the right one
    descending by upper bound; and so for the nodes below. *)
Fixpoint well_formed (n : Node) : Prop :=
  match n with
  | Empty => True
  | MkNode val ll rl ln rn =>
      StronglySorted (fun a b => lower a <= lower b) ll /\
      StronglySorted (fun a b => upper b <= upper a) rl /\
      Permutation ll rl /\
      Forall (fun i => lower i <= val <= upper i) ll /\
      well_formed ln /\ well_formed rn
  end.

(** The interval is in the lists of some node of the tree. *)
Fixpoint held (n : Node) (iv : interval) : Prop :=
  match n with
  | Empty => False
  | MkNode _ ll _ ln rn => In iv ll \/ held ln iv \/ held rn iv
  end.

(** The number of nodes on the longest way down. *)
Fixpoint height (n : Node) : nat :=
  match n with
  | Empty => O
  | MkNode _ _ _ ln rn => S (Nat.max (height ln) (height rn))
  end.

End WithPayload.
Arguments interval : clear implicits.
Arguments Node : clear implicits.
Arguments t : clear implicits.

End IntervalTree.

(** ** Grid *)

Module Grid.

(** Modelled from the spec: the [Point] type of module [shapes], which is
    not part of the sources at hand: two numeric coordinates, read as
    [loc[0]] and [loc[1]]. *)
Definition Point : Type := (Z * Z)%type.

(** Modelled from the spec: the [Rectangle] type of module [shapes]: four
    scalar fields. *)
Record Rectangle : Type := MkRectangle {
  left : Z;
  lower : Z;
  right : Z;
  upper : Z
}.

(** Modelled from the spec: [get_points_dist] of module [standalone], the
    Euclidean distance between two points.  The distance [sqrt n] between
    two integer points is kept as the integer [n] it is the root of, so
    that it stays exact; the square root is increasing, so distances
    compare as their squares do. *)
Definition get_points_dist (p1 p2 : Point) : Z :=
  (p1.1 - p2.1) * (p1.1 - p2.1) + (p1.2 - p2.2) * (p1.2 - p2.2).

(** [sqrt n <= r] for a number [r] *)
Definition dist_le (n r : Z) : bool := (0 <=? r) && (n <=? r * r).

(** [sqrt n > r] *)
Definition dist_gt (n r : Z) : bool := negb (dist_le n r).

(** [xrange(a, b)] *)
Definition xrange (a b : Z) : list Z := seqZ a (b - a).

(** [list.remove(x)]: drops the first element equal to [x]; [None] is the
    [ValueError] of a list without one. *)
Fixpoint list_remove {A : Type} `{EqDecision A} (x : A) (l : list A)
  : option (list A) :=
  match l with
  | [] => None
  | y :: l' =>
      if decide (y = x) then Some l'
      else match list_remove x l' with
           | Some r => Some (y :: r)
           | None => None
           end
  end.

Section WithItem.
Context {item : Type} `{EqDecision item}.
(** Python's [<] on items, which [min] falls back on between two
    candidates at the same distance. *)
Variable item_lt : item -> item -> bool.

Record t : Type := MkGrid {
  res : Z;
  hash : gmap (Z * Z) (list (Point * item));
  x_range : Z * Z;
  y_range : Z * Z;
  i_range : Z;
  j_range : Z
}.

Definition set_hash (self : t) (h : gmap (Z * Z) (list (Point * item))) : t :=
  MkGrid (res self) h (x_range self) (y_range self) (i_range self)
         (j_range self).

(** [Grid.__init__].  On integers [(a - b) / res] is already an integer,
    which [math.ceil] and [int] leave as it is. *)
Definition __init__ (bounds : Rectangle) (resolution : Z) : outcome t :=
  if resolution =? 0 then Raised InvalidResolution
  else
    let x_range := (left bounds, right bounds) in
    let y_range := (lower bounds, upper bounds) in
    Returned (MkGrid resolution ∅ x_range y_range
                ((x_range.2 - x_range.1) / resolution)
                ((y_range.2 - y_range.1) / resolution)).

(** [Grid.in_grid] *)
Definition in_grid (self : t) (loc : Point) : bool :=
  ((x_range self).1 <=? loc.1) && (loc.1 <=? (x_range self).2) &&
  ((y_range self).1 <=? loc.2) && (loc.2 <=? (y_range self).2).

(** [Grid.__grid_loc] *)
Definition __grid_loc (self : t) (loc : Point) : Z * Z :=
  let i := Z.min (i_range self)
             (Z.max ((loc.1 - (x_range self).1) / res self) 0) in
  let j := Z.min (j_range self)
             (Z.max ((loc.2 - (y_range self).1) / res self) 0) in
  (i, j).

(** [Grid.add], as a transition of [self]. *)
Definition add (self : t) (x : item) (pt : Point) : t * outcome item :=
  if negb (in_grid self pt) then (self, Raised OutOfBounds)
  else
    let grid_loc := __grid_loc self pt in
    match hash self !! grid_loc with
    | Some l =>
        (set_hash self (<[grid_loc := l ++ [(pt, x)]]> (hash self)),
         Returned x)
    | None =>
        (set_hash self (<[grid_loc := [(pt, x)]]> (hash self)), Returned x)
    end.

(** [Grid.remove], as a transition of [self]. *)
Definition remove (self : t) (x : item) (pt : Point) : t * outcome item :=
  if negb (in_grid self pt) then (self, Raised OutOfBounds)
  else
    let grid_loc := __grid_loc self pt in
    match hash self !! grid_loc with
    | None => (self, Raised KeyError)
    | Some l =>
        match list_remove (pt, x) l with
        | None => (self, Raised ValueError)
        | Some [] => (set_hash self (delete grid_loc (hash self)), Returned x)
        | Some l' =>
            (set_hash self (<[grid_loc := l']> (hash self)), Returned x)
        end
    end.

(** The two nested [for] loops shared by the queries: the buckets of the
    cells from [lower_left] to [upper_right], each put through [f], in
    the order the loops visit them. *)
Definition scan_cells {B : Type} (self : t) (lower_left upper_right : Z * Z)
    (f : list (Point * item) -> list B) : list B :=
  flat_map (fun i =>
    flat_map (fun j =>
      match hash self !! (i, j) with
      | Some l => f l
      | None => []
      end)
      (xrange lower_left.2 (upper_right.2 + 1)))
    (xrange lower_left.1 (upper_right.1 + 1)).

(** [Grid.bounds] *)
Definition bounds (self : t) (bounds : Rectangle) : list item :=
  let x_range := (left bounds, right bounds) in
  let y_range := (lower bounds, upper bounds) in
  let lower_left := __grid_loc self (x_range.1, y_range.1) in
  let upper_right := __grid_loc self (x_range.2, y_range.2) in
  scan_cells self lower_left upper_right (fun l =>
    map snd
      (List.filter (fun it : Point * item =>
         (x_range.1 <=? it.1.1) && (it.1.1 <=? x_range.2) &&
         (y_range.1 <=? it.1.2) && (it.1.2 <=? y_range.2)) l)).

(** [Grid.proximity] *)
Definition proximity (self : t) (pt : Point) (r : Z) : list item :=
  let lower_left := __grid_loc self (pt.1 - r, pt.2 - r) in
  let upper_right := __grid_loc self (pt.1 + r, pt.2 + r) in
  scan_cells self lower_left upper_right (fun l =>
    map snd
      (List.filter (fun it : Point * item =>
         dist_le (get_points_dist pt it.1) r) l)).

(** Python's [<] on the tuples [(distance, item)]. *)
Definition tuple_lt (a b : Z * item) : bool :=
  (a.1 <? b.1) || ((a.1 =? b.1) && item_lt a.2 b.2).

(** [min(items)] on a list that starts with [cur]: the first of the
    smallest elements. *)
Fixpoint min_from (cur : Z * item) (l : list (Z * item)) : Z * item :=
  match l with
  | [] => cur
  | x :: l' => min_from (if tuple_lt x cur then x else cur) l'
  end.

(** The [while] loop of [Grid.nearest]: the final [search_size], or [None]
    when the fuel is spent first. *)
Fixpoint nearest_loop (fuel : nat) (self : t) (pt : Point) (search_size : Z)
  : option Z :=
  match fuel with
  | O => None
  | S fuel' =>
      let x0 := (x_range self).1 in
      let x1 := (x_range self).2 in
      let y0 := (y_range self).1 in
      let y1 := (y_range self).2 in
      if (match proximity self pt search_size with [] => true | _ => false end)
         && (dist_gt (get_points_dist (x0, y0) pt) search_size
             || dist_gt (get_points_dist (x1, y0) pt) search_size
             || dist_gt (get_points_dist (x0, y1) pt) search_size
             || dist_gt (get_points_dist (x1, y1) pt) search_size)
      then nearest_loop fuel' self pt (2 * search_size)
      else Some search_size
  end.

(** [Grid.nearest]; the inner [None] is Python's [None]. *)
Definition nearest (fuel : nat) (self : t) (pt : Point)
  : outcome (option item) :=
  match nearest_loop fuel self pt (res self) with
  | None => OutOfFuel
  | Some search_size =>
      let lower_left :=
        __grid_loc self (pt.1 - search_size, pt.2 - search_size) in
      let upper_right :=
        __grid_loc self (pt.1 + search_size, pt.2 + search_size) in
      let items :=
        scan_cells self lower_left upper_right (fun l =>
          map (fun it : Point * item => (get_points_dist pt it.1, it.2)) l) in
      match items with
      | [] => Returned None
      | first :: others => Returned (Some (min_from first others).2)
      end
  end.

(** *** Vocabulary of the properties *)

(** The bucket of a cell; a cell without a key holds nothing. *)
Definition bucket (self : t) (k : Z * Z) : list (Point * item) :=
  match hash self !! k with
  | Some l => l
  | None => []
  end.

(** The pair [(pt, x)] is held by some bucket. *)
Definition stored (self : t) (pt : Point) (x : item) : Prop :=
  exists k l, hash self !! k = Some l /\ In (pt, x) l.

(** How many copies of [(pt, x)] the bucket of the cell of [pt] holds. *)
Definition copies (self : t) (pt : Point) (x : item) : nat :=
  count_occ (prod_eq_dec (A := Point) (B := item))
    (bucket self (__grid_loc self pt)) (pt, x).

(** The invariant of the buckets: a pair held under a key has its point
    inside the bounds and in the cell of that key. *)
Definition inv (self : t) : Prop :=
  forall k l, hash self !! k = Some l ->
  forall pt x, In (pt, x) l ->
    __grid_loc self pt = k /\ in_grid self pt = true.

(** The fields are those the constructor computes. *)
Definition consistent (self : t) : Prop :=
  res self <> 0 /\
  i_range self = ((x_range self).2 - (x_range self).1) / res self /\
  j_range self = ((y_range self).2 - (y_range self).1) / res self.

(** The grids a program can hold: built by the constructor, then changed
    by calls of [add] and [remove] (a call that raises changes nothing). *)
Inductive reachable : t -> Prop :=
  | reach_init bounds resolution g :
      __init__ bounds resolution = Returned g -> reachable g
  | reach_add g x pt : reachable g -> reachable (add g x pt).1
  | reach_remove g x pt : reachable g -> reachable (remove g x pt).1.

(** The pairs [(distance, item)] that [nearest] takes the least of, for
    the final [search_size]. *)
Definition candidates (self : t) (pt : Point) (search_size : Z)
  : list (Z * item) :=
  let lower_left :=
    __grid_loc self (pt.1 - search_size, pt.2 - search_size) in
  let upper_right :=
    __grid_loc self (pt.1 + search_size, pt.2 + search_size) in
  scan_cells self lower_left upper_right (fun l =>
    map (fun it : Point * item => (get_points_dist pt it.1, it.2)) l).

(** [min(items)], [None] on the empty list. *)
Definition py_min (items : list (Z * item)) : option (Z * item) :=
  match items with
  | [] => None
  | first :: others => Some (min_from first others)
  end.

(** The four corners of the bounds are within [s] of [pt]: the second
    half of the test of the loop of [nearest] fails. *)
Definition corners_reached (g : t) (pt : Point) (s : Z) : Prop :=
  dist_gt (get_points_dist ((x_range g).1, (y_range g).1) pt) s = false /\
  dist_gt (get_points_dist ((x_range g).2, (y_range g).1) pt) s = false /\
  dist_gt (get_points_dist ((x_range g).1, (y_range g).2) pt) s = false /\
  dist_gt (get_points_dist ((x_range g).2, (y_range g).2) pt) s = false.

(** [<] on items is a strict total order, as Python's is on numbers and
    on strings. *)
Definition strict_total_order : Prop :=
  (forall a, item_lt a a = false) /\
  (forall a b c, item_lt a b = true -> item_lt b c = true ->
                 item_lt a c = true) /\
  (forall a b, a = b \/ item_lt a b = true \/ item_lt b a = true).

(** The items of a result other than [x], in their order. *)
Definition others (x : item) (result : list item) : list item :=
  List.filter (fun y => negb (bool_decide (y = x))) result.

(** Two grids with the same fields whose buckets hold the same pairs, up
    to their order, and the same pairs other than those of [x], in the
    same order. *)
Definition same_but_order (x : item) (g g' : t) : Prop :=
  (exists h, g' = set_hash g h) /\
  forall k,
    Permutation (bucket g' k) (bucket g k) /\
    List.filter (fun it : Point * item => negb (bool_decide (it.2 = x)))
      (bucket g' k) =
    List.filter (fun it : Point * item => negb (bool_decide (it.2 = x)))
      (bucket g k).

(** The point lies in the rectangle, borders included. *)
Definition in_rect (r : Rectangle) (pt : Point) : Prop :=
  left r <= pt.1 <= right r /\ lower r <= pt.2 <= upper r.

(** Every bucket under a key holds a pair. *)
Definition no_empty_bucket (g : t) : Prop :=
  forall k, hash g !! k <> Some [].

(** *** The invariant of the buckets as the specification words it

    These definitions follow the specification, not the source: the cell
    of a point is the "clamped floor-division by resolution, relative to
    the rectangle's lower-left corner" ([Z.div] is floor division), and a
    stored point lies "inside the bounding rectangle". *)

(** [clamp(v, lo, hi)] *)
Definition clamp (v lo hi : Z) : Z := Z.min hi (Z.max v lo).

Definition cell_of (g : t) (pt : Point) : Z * Z :=
  (clamp ((pt.1 - (x_range g).1) / res g) 0 (i_range g),
   clamp ((pt.2 - (y_range g).1) / res g) 0 (j_range g)).

Definition inside_bounds (g : t) (pt : Point) : Prop :=
  (x_range g).1 <= pt.1 <= (x_range g).2 /\
  (y_range g).1 <= pt.2 <= (y_range g).2.

Definition cell_invariant (g : t) : Prop :=
  forall i j l, hash g !! (i, j) = Some l ->
  forall pt x, In (pt, x) l -> cell_of g pt = (i, j) /\ inside_bounds g pt.

End WithItem.
Arguments t : clear implicits.

End Grid.

(** ** The point locators *)

(** Modelled from the spec: [get_rectangle_point_intersect] of module
    [standalone], which is not part of the sources at hand: the
    point-in-rectangle test, answering the point when it lies in the
    rectangle, borders included, and [None] otherwise. *)
Definition get_rectangle_point_intersect (rect : Grid.Rectangle)
    (pt : Grid.Point) : option Grid.Point :=
  if (Grid.left rect <=? pt.1) && (pt.1 <=? Grid.right rect) &&
     (Grid.lower rect <=? pt.2) && (pt.2 <=? Grid.upper rect)
  then Some pt else None.

(** [min(l, key=key)] on a list that starts with [cur]: the first of the
    elements of least key. *)
Fixpoint min_key_from {A : Type} (key : A -> Z) (cur : A) (l : list A) : A :=
  match l with
  | [] => cur
  | x :: l' => min_key_from key (if key x <? key cur then x else cur) l'
  end.

Module BruteForcePointLocator.

Record t : Type := Locator { _points : list Grid.Point }.

(** [BruteForcePointLocator.__init__] *)
Definition __init__ (points : list Grid.Point) : t := Locator points.

(** [BruteForcePointLocator.nearest]; [min] of an empty list raises
    [ValueError]. *)
Definition nearest (self : t) (query_point : Grid.Point)
  : outcome Grid.Point :=
  match _points self with
  | [] => Raised ValueError
  | p :: ps =>
      Returned
        (min_key_from (fun p => Grid.get_points_dist p query_point) p ps)
  end.

(** [BruteForcePointLocator.region] *)
Definition region (self : t) (region_rect : Grid.Rectangle)
  : list Grid.Point :=
  List.filter
    (fun p => match get_rectangle_point_intersect region_rect p with
              | Some _ => true
              | None => false
              end)
    (_points self).

(** [BruteForcePointLocator.proximity] *)
Definition proximity (self : t) (origin : Grid.Point) (r : Z)
  : list Grid.Point :=
  List.filter (fun p => Grid.dist_le (Grid.get_points_dist p origin) r)
    (_points self).

End BruteForcePointLocator.

Module PointLocator.

Record t : Type := Locator { _locator : BruteForcePointLocator.t }.

(** [PointLocator.__init__] *)
Definition __init__ (points : list Grid.Point) : t :=
  Locator (BruteForcePointLocator.__init__ points).

(** [PointLocator.nearest] *)
Definition nearest (self : t) (query_point : Grid.Point)
  : outcome Grid.Point :=
  BruteForcePointLocator.nearest (_locator self) query_point.

(** [PointLocator.region] *)
Definition region (self : t) (region_rect : Grid.Rectangle)
  : list Grid.Point :=
  BruteForcePointLocator.region (_locator self) region_rect.

(** [PointLocator.proximity] *)
Definition proximity (self : t) (origin : Grid.Point) (r : Z)
  : list Grid.Point :=
  BruteForcePointLocator.proximity (_locator self) origin r.

End PointLocator.

(** A grid that indexes points as a locator does: every point is added
    as the item at its own place. *)
Definition index_points (g : Grid.t Grid.Point) (points : list Grid.Point)
  : Grid.t Grid.Point :=
  fold_left (fun g p => (Grid.add g p p).1) points g.

(** ** Example data, from the doctests *)

Module Examples.

Definition doc_intervals : list (IntervalTree.interval string) :=
  [IntervalTree.Interval (-1) 2 "A"%string;
   IntervalTree.Interval 5 9 "B"%string;
   IntervalTree.Interval 3 6 "C"%string].

Definition one_interval : list (IntervalTree.interval string) :=
  [IntervalTree.Interval 0 10 "A"%string].

Definition two_intervals : list (IntervalTree.interval string) :=
  [IntervalTree.Interval 6 10 "A"%string;
   IntervalTree.Interval 7 7 "B"%string].

(** [Grid(Rectangle(0, 0, 10, 10), 1)] *)
Definition unit_grid : Grid.t string :=
  Grid.MkGrid 1 ∅ (0, 10) (0, 10) 10 10.

(** ... after [add('A', (1, 1))] and [add('B', (4, 4))] *)
Definition doc_grid : Grid.t string :=
  (Grid.add (Grid.add unit_grid "A"%string (1, 1)).1 "B"%string (4, 4)).1.

(** The same grid, for items that are numbers. *)
Definition number_grid : Grid.t Z :=
  Grid.MkGrid 1 ∅ (0, 10) (0, 10) 10 10.

(** [Grid(Rectangle(0, 0, 10, 10), -1)] *)
Definition negative_grid : Grid.t string :=
  Grid.MkGrid (-1) ∅ (0, 10) (0, 10) (-10) (-10).


(** The points of the doctests of the locators. *)
Definition doc_points : list Grid.Point := [(0, 0); (1, 6); (5, 1)].

(** [Grid(Rectangle(0, 0, 10, 10), 1)], for items that are points. *)
Definition point_grid : Grid.t Grid.Point :=
  Grid.MkGrid 1 ∅ (0, 10) (0, 10) 10 10.

(** The tree of the constructor for [doc_intervals]. *)
Definition doc_tree : IntervalTree.Node string :=
  Eval vm_compute in
    match IntervalTree.root (IntervalTree.__init__ 7 doc_intervals).1 with
    | Some node => node
    | None => IntervalTree.Empty
    end.

(** A grid of numbers with two items at the same place. *)
Definition pair_grid : Grid.t Z :=
  (Grid.add (Grid.add number_grid 1 (1, 1)).1 2 (1, 1)).1.

(** A grid of numbers with three items at the same place. *)
Definition triple_grid : Grid.t Z :=
  (Grid.add pair_grid 3 (1, 1)).1.

(** A [<] that is a partial order only, as [<] is on Python sets: item 3
    is below item 1, item 2 compares with neither (think of the sets
    [{a}], [{a, b}] and [{c}] for 3, 1 and 2). *)
Definition subset_lt (a b : Z) : bool := (a =? 3) && (b =? 1).

End Examples.

(** * Properties of the interval tree *)

Module IntervalTreeSpec.
Import IntervalTree.

Section Facts.
Context {payload : Type}.
Implicit Types (i iv : interval payload) (l : list (interval payload)).
Implicit Types (intervals : list (interval payload)) (eps : list Z).

(** *** The scan of [Node.query] *)

Lemma scan_sound keep l x :
  In x (firstn (scan keep l) l) -> keep x = true /\ In x l.
Proof.
  induction l as [|y l IH]; simpl; [tauto|].
  destruct (keep y) eqn:Hy; simpl; [|tauto].
  intros [<-|Hx]; [auto|]. destruct (IH Hx); auto.
Qed.

Lemma scan_complete (R : interval payload -> interval payload -> Prop)
    keep l x :
  (forall a b, R a b -> keep b = true -> keep a = true) ->
  StronglySorted R l -> In x l -> keep x = true ->
  In x (firstn (scan keep l) l).
Proof.
  intros Hdown Hs. induction Hs as [|y l Hs IH Hall]; simpl; [tauto|].
  intros Hin Hk.
  assert (Hy : keep y = true).
  { destruct Hin as [->|Hin]; [exact Hk|].
    rewrite Forall_forall in Hall.
    apply (Hdown y x); [apply Hall, list_elem_of_In, Hin | exact Hk]. }
  rewrite Hy. simpl. destruct Hin as [->|Hin]; [left; reflexivity|].
  right. apply IH; assumption.
Qed.

(** *** The sort *)

Lemma sort_insert_In cmp x l y :
  In y (sort_insert cmp x l) <-> y = x \/ In y l.
Proof.
  induction l as [|z l IH]; simpl; [intuition|].
  destruct (cmp z x <? 0); simpl; [rewrite IH|]; intuition.
Qed.

Lemma sort_In cmp l y : In y (sort cmp l) <-> In y l.
Proof.
  induction l as [|z l IH]; simpl; [tauto|].
  rewrite sort_insert_In, IH. intuition.
Qed.

Lemma sort_insert_sorted (R : interval payload -> interval payload -> Prop)
    cmp x l :
  (forall a b c, R a b -> R b c -> R a c) ->
  (forall a b, (cmp a b <? 0) = true -> R a b) ->
  (forall a b, (cmp a b <? 0) = false -> R b a) ->
  StronglySorted R l -> StronglySorted R (sort_insert cmp x l).
Proof.
  intros Htr Hlt Hge Hs. induction Hs as [|y l Hs IH Hall]; simpl.
  - constructor; [constructor | constructor].
  - destruct (cmp y x <? 0) eqn:Hc.
    + constructor; [exact IH|].
      rewrite Forall_forall in *. intros z Hz.
      apply list_elem_of_In, sort_insert_In in Hz.
      destruct Hz as [->|Hz]; [apply Hlt, Hc | apply Hall, list_elem_of_In, Hz].
    + constructor; [constructor; assumption|].
      constructor; [apply Hge, Hc|].
      rewrite Forall_forall in *. intros z Hz.
      apply (Htr x y z); [apply Hge, Hc | apply Hall, Hz].
Qed.

Lemma sort_sorted (R : interval payload -> interval payload -> Prop) cmp l :
  (forall a b c, R a b -> R b c -> R a c) ->
  (forall a b, (cmp a b <? 0) = true -> R a b) ->
  (forall a b, (cmp a b <? 0) = false -> R b a) ->
  StronglySorted R (sort cmp l).
Proof.
  intros Htr Hlt Hge. induction l as [|x l IH]; simpl.
  - constructor.
  - apply sort_insert_sorted; assumption.
Qed.

Lemma sign_neg x : (sign x <? 0) = true <-> x < 0.
Proof.
  unfold sign. destruct (x <? 0) eqn:H1; [|destruct (x >? 0) eqn:H2]; lia.
Qed.

Lemma left_list_sorted l :
  StronglySorted (fun a b => lower a <= lower b)
    (sort (fun a b => sign (lower a - lower b)) l).
Proof.
  apply sort_sorted.
  - intros; lia.
  - intros a b Hc. apply sign_neg in Hc. lia.
  - intros a b Hc.
    destruct (Z_lt_dec (lower a - lower b) 0) as [Hn|Hn]; [|lia].
    apply sign_neg in Hn. congruence.
Qed.

Lemma right_list_sorted l :
  StronglySorted (fun a b => upper b <= upper a)
    (sort (fun a b => sign (upper b - upper a)) l).
Proof.
  apply sort_sorted.
  - intros; lia.
  - intros a b Hc. apply sign_neg in Hc. lia.
  - intros a b Hc.
    destruct (Z_lt_dec (upper b - upper a) 0) as [Hn|Hn]; [|lia].
    apply sign_neg in Hn. congruence.
Qed.

(** *** The endpoint list *)

Lemma set_insert_In x eps y : In y (set_insert x eps) <-> y = x \/ In y eps.
Proof.
  induction eps as [|z eps IH]; simpl; [intuition|].
  destruct (x <? z) eqn:H1; simpl; [intuition|].
  destruct (x =? z) eqn:H2; simpl; [|rewrite IH; intuition].
  apply Z.eqb_eq in H2. subst. intuition.
Qed.

Lemma sorted_set_In (xs : list Z) y : In y (sorted_set xs) <-> In y xs.
Proof.
  induction xs as [|x xs IH]; simpl; [tauto|].
  rewrite set_insert_In, IH. intuition.
Qed.

Lemma set_insert_sorted x eps :
  StronglySorted Z.lt eps -> StronglySorted Z.lt (set_insert x eps).
Proof.
  intros Hs. induction Hs as [|y eps Hs IH Hall]; simpl.
  - constructor; [constructor | constructor].
  - destruct (x <? y) eqn:H1; [|destruct (x =? y) eqn:H2].
    + constructor; [constructor; assumption|].
      constructor; [lia|].
      rewrite Forall_forall in *. intros z Hz. specialize (Hall z Hz). lia.
    + constructor; assumption.
    + constructor; [exact IH|].
      rewrite Forall_forall in *. intros z Hz.
      apply list_elem_of_In, set_insert_In in Hz.
      destruct Hz as [->|Hz]; [lia | apply Hall, list_elem_of_In, Hz].
Qed.

Lemma sorted_set_sorted (xs : list Z) : StronglySorted Z.lt (sorted_set xs).
Proof.
  induction xs as [|x xs IH]; simpl.
  - constructor.
  - apply set_insert_sorted, IH.
Qed.

Lemma endpoints_In intervals x :
  In x (endpoints intervals) <->
  exists iv, In iv intervals /\ (x = lower iv \/ x = upper iv).
Proof.
  unfold endpoints. rewrite sorted_set_In, in_app_iff, !in_map_iff.
  split.
  - intros [[iv [<- Hin]]|[iv [<- Hin]]]; exists iv; auto.
  - intros [iv [Hin [Hx | Hx]]]; subst x; [left|right]; exists iv; auto.
Qed.

(** *** The binary search *)

Lemma sorted_nth eps :
  StronglySorted Z.lt eps ->
  forall a b, (a <= b < length eps)%nat -> nth a eps 0 <= nth b eps 0.
Proof.
  intros Hs. induction Hs as [|y eps Hs IH Hall]; simpl; [lia|].
  intros [|a] [|b] Hab; try lia.
  - rewrite Forall_forall in Hall.
    assert (In (nth b eps 0) eps) by (apply nth_In; lia).
    specialize (Hall (nth b eps 0)). rewrite list_elem_of_In in Hall.
    specialize (Hall H). lia.
  - apply IH. lia.
Qed.

Lemma binary_search_loop_spec eps q :
  StronglySorted Z.lt eps ->
  forall fuel lo hi,
    (lo <= hi <= length eps)%nat -> (hi - lo <= fuel)%nat ->
    (forall a, (a < lo)%nat -> nth a eps 0 < q) ->
    (forall a, (hi <= a < length eps)%nat -> q <= nth a eps 0) ->
    (binary_search_loop fuel eps q lo hi <= length eps)%nat /\
    (forall a, (a < binary_search_loop fuel eps q lo hi)%nat ->
               nth a eps 0 < q) /\
    (forall a, (binary_search_loop fuel eps q lo hi <= a < length eps)%nat ->
               q <= nth a eps 0).
Proof.
  intros Hs. induction fuel as [|fuel IH];
    intros lo hi Hlr Hfuel Hbelow Habove; cbn [binary_search_loop].
  - assert (lo = hi) by lia. subst.
    repeat split; [lia | exact Hbelow | exact Habove].
  - destruct (lo <? hi)%nat eqn:Hc.
    + apply Nat.ltb_lt in Hc.
      assert (Hm : (lo <= (lo + hi) / 2 < hi)%nat).
      { split; [apply Nat.div_le_lower_bound | apply Nat.Div0.div_lt_upper_bound];
          lia. }
      cbv zeta. destruct (nth ((lo + hi) / 2) eps 0 <? q) eqn:Hq.
      * apply Z.ltb_lt in Hq.
        apply (IH ((lo + hi) / 2 + 1)%nat hi); try lia; [|exact Habove].
        intros a Ha.
        assert (nth a eps 0 <= nth ((lo + hi) / 2) eps 0)
          by (apply sorted_nth; [exact Hs | lia]).
        lia.
      * apply Z.ltb_ge in Hq.
        apply (IH lo ((lo + hi) / 2)%nat); try lia; [exact Hbelow|].
        intros a Ha.
        assert (nth ((lo + hi) / 2) eps 0 <= nth a eps 0)
          by (apply sorted_nth; [exact Hs | lia]).
        lia.
    + apply Nat.ltb_ge in Hc. assert (lo = hi) by lia. subst.
      repeat split; [lia | exact Hbelow | exact Habove].
Qed.

Lemma binary_search_spec eps q :
  StronglySorted Z.lt eps ->
  (binary_search eps q <= length eps)%nat /\
  (forall a, (a < binary_search eps q)%nat -> nth a eps 0 < q) /\
  (forall a, (binary_search eps q <= a < length eps)%nat ->
             q <= nth a eps 0).
Proof.
  intros Hs. unfold binary_search.
  apply binary_search_loop_spec; [exact Hs | lia | lia | lia | lia].
Qed.

(** A list cut at an index below which a test holds and from which on it
    fails is cut into the elements that pass and those that do not. *)
Lemma cut_filter (P : Z -> bool) eps :
  forall bp,
    (bp <= length eps)%nat ->
    (forall a, (a < bp)%nat -> P (nth a eps 0) = true) ->
    (forall a, (bp <= a < length eps)%nat -> P (nth a eps 0) = false) ->
    firstn bp eps = List.filter P eps /\
    skipn bp eps = List.filter (fun x => negb (P x)) eps.
Proof.
  induction eps as [|x eps IH]; intros bp Hlen Hlo Hhi.
  - simpl in Hlen. assert (bp = O) by lia. subst. split; reflexivity.
  - destruct bp as [|bp]; simpl.
    + assert (Hx : P x = false) by (apply (Hhi O); simpl; lia).
      rewrite Hx. simpl.
      destruct (IH O) as [H1 H2]; [lia | intros; lia | |].
      { intros a Ha. apply (Hhi (S a)). simpl. lia. }
      simpl in H1, H2. rewrite <- H1, <- H2. split; reflexivity.
    + assert (Hx : P x = true) by (apply (Hlo O); lia).
      rewrite Hx. simpl in *.
      destruct (IH bp) as [H1 H2]; [lia | | |].
      { intros a Ha. apply (Hlo (S a)). lia. }
      { intros a Ha. apply (Hhi (S a)). lia. }
      rewrite H1, H2. split; reflexivity.
Qed.

(** What the binary search cuts [eps] into: the endpoints below [median]
    and the endpoints from [median] on. *)
Lemma child_eps_filter intervals median :
  child_eps intervals median =
  (List.filter (fun x => x <? median) (endpoints intervals),
   List.filter (fun x => negb (x <? median)) (endpoints intervals)).
Proof.
  unfold child_eps.
  destruct (binary_search_spec (endpoints intervals) median)
    as [Hlen [Hlo Hhi]]; [apply sorted_set_sorted|].
  destruct (cut_filter (fun x => x <? median) (endpoints intervals)
              (binary_search (endpoints intervals) median)) as [H1 H2].
  - exact Hlen.
  - intros a Ha. apply Z.ltb_lt, Hlo, Ha.
  - intros a Ha. apply Z.ltb_ge, Hhi, Ha.
  - rewrite H1, H2. reflexivity.
Qed.

Lemma child_eps_left intervals median x :
  In x (child_eps intervals median).1 <->
  In x (endpoints intervals) /\ x < median.
Proof.
  rewrite child_eps_filter. simpl. rewrite filter_In, Z.ltb_lt. tauto.
Qed.

Lemma child_eps_right intervals median x :
  In x (child_eps intervals median).2 <->
  In x (endpoints intervals) /\ median <= x.
Proof.
  rewrite child_eps_filter. simpl.
  rewrite filter_In, negb_true_iff, Z.ltb_ge. tauto.
Qed.

(** *** One step of the build *)

Lemma build_step fuel intervals e eps :
  _recursive_build (S fuel) intervals (e :: eps) =
  let median := median_of (e :: eps) in
  match _recursive_build fuel (rem_of median intervals)
          (child_eps intervals median).1,
        _recursive_build fuel (rem_of median intervals)
          (child_eps intervals median).2 with
  | Some ln, Some rn =>
      Some (MkNode median
              (sort (fun a b => sign (lower a - lower b))
                 (hit_of median intervals))
              (sort (fun a b => sign (upper b - upper a))
                 (hit_of median intervals))
              ln rn)
  | _, _ => None
  end.
Proof. reflexivity. Qed.

Lemma centered_spec median iv :
  centered median iv = true <-> lower iv <= median <= upper iv.
Proof. unfold centered. rewrite andb_true_iff, !Z.leb_le. tauto. Qed.

Lemma median_of_In e eps : In (median_of (e :: eps)) (e :: eps).
Proof.
  unfold median_of. apply nth_In.
  apply Nat.Div0.div_lt_upper_bound. simpl. lia.
Qed.

Lemma hit_of_In median intervals iv :
  In iv (hit_of median intervals) <->
  In iv intervals /\ lower iv <= median <= upper iv.
Proof. unfold hit_of. rewrite filter_In, centered_spec. tauto. Qed.

Lemma rem_of_In median intervals iv :
  In iv (rem_of median intervals) <->
  In iv intervals /\ ~ (lower iv <= median <= upper iv).
Proof.
  unfold rem_of. rewrite filter_In, negb_true_iff, <- centered_spec.
  destruct (centered median iv); intuition congruence.
Qed.

Lemma valid_rem median intervals :
  valid intervals -> valid (rem_of median intervals).
Proof.
  unfold valid. rewrite !Forall_forall. intros Hv iv Hin.
  apply Hv. apply list_elem_of_In. apply list_elem_of_In in Hin.
  apply rem_of_In in Hin. tauto.
Qed.

Lemma hit_rem_length median intervals :
  (length (hit_of median intervals) + length (rem_of median intervals)
   = length intervals)%nat.
Proof.
  unfold hit_of, rem_of. induction intervals as [|iv l IH]; simpl; [lia|].
  destruct (centered median iv); simpl; lia.
Qed.

Lemma rem_of_all median intervals :
  hit_of median intervals = [] -> rem_of median intervals = intervals.
Proof.
  unfold hit_of, rem_of. induction intervals as [|iv l IH]; simpl; [auto|].
  destruct (centered median iv); simpl; [discriminate|].
  intros Hh. rewrite IH; auto.
Qed.

Lemma endpoint_hit median intervals :
  valid intervals -> In median (endpoints intervals) ->
  hit_of median intervals <> [].
Proof.
  intros Hv Hin Hnil. apply endpoints_In in Hin.
  destruct Hin as [iv [Hiv Hm]].
  assert (Hle : lower iv <= upper iv).
  { unfold valid in Hv. rewrite Forall_forall in Hv.
    apply Hv, list_elem_of_In, Hiv. }
  assert (Hh : In iv (hit_of median intervals)).
  { apply hit_of_In. split; [exact Hiv | lia]. }
  rewrite Hnil in Hh. destruct Hh.
Qed.

(** *** The build ends on a valid batch *)

Lemma build_total fuel :
  forall intervals eps,
    valid intervals ->
    (2 * length intervals + 1 < fuel)%nat \/
    ((forall x, In x eps -> In x (endpoints intervals)) /\
     (2 * length intervals < fuel)%nat) ->
    exists node, _recursive_build fuel intervals eps = Some node.
Proof.
  induction fuel as [|fuel IH]; intros intervals eps Hv Hfuel; [lia|].
  destruct eps as [|e eps]; [exists Empty; reflexivity|].
  rewrite build_step. cbv zeta.
  set (median := median_of (e :: eps)).
  assert (Hchild : forall E,
            (forall x, In x E -> In x (endpoints intervals)) ->
            exists node,
              _recursive_build fuel (rem_of median intervals) E = Some node).
  { intros E HE. apply IH; [apply valid_rem, Hv|].
    pose proof (hit_rem_length median intervals) as Hlen.
    destruct (hit_of median intervals) as [|h hs] eqn:Hhit.
    - right. rewrite (rem_of_all median intervals Hhit).
      split; [exact HE|].
      destruct Hfuel as [Hf|[Hsub Hf]]; [lia|].
      exfalso. apply (endpoint_hit median intervals Hv); [|exact Hhit].
      apply Hsub, median_of_In.
    - left. simpl in Hlen. destruct Hfuel as [Hf|[_ Hf]]; lia. }
  destruct (Hchild (child_eps intervals median).1) as [ln Hln].
  { intros x Hx. apply child_eps_left in Hx. tauto. }
  destruct (Hchild (child_eps intervals median).2) as [rn Hrn].
  { intros x Hx. apply child_eps_right in Hx. tauto. }
  rewrite Hln, Hrn. eexists. reflexivity.
Qed.

Lemma build_mono fuel :
  forall intervals eps node,
    _recursive_build fuel intervals eps = Some node ->
    forall fuel', (fuel <= fuel')%nat ->
    _recursive_build fuel' intervals eps = Some node.
Proof.
  induction fuel as [|fuel IH]; intros intervals eps node Hb fuel' Hle;
    [discriminate|].
  destruct fuel' as [|fuel']; [lia|].
  destruct eps as [|e eps]; [exact Hb|].
  rewrite build_step in *. cbv zeta in *.
  destruct (_recursive_build fuel _ (child_eps _ _).1) as [ln|] eqn:Hln;
    [|discriminate].
  destruct (_recursive_build fuel _ (child_eps _ _).2) as [rn|] eqn:Hrn;
    [|discriminate].
  rewrite (IH _ _ _ Hln fuel'), (IH _ _ _ Hrn fuel') by lia. exact Hb.
Qed.

(** *** [Node.query] on the lists of a built node *)

Lemma node_query_iff median intervals q x :
  In x (query median
          (sort (fun a b => sign (lower a - lower b))
             (hit_of median intervals))
          (sort (fun a b => sign (upper b - upper a))
             (hit_of median intervals)) q) <->
  exists iv, In iv intervals /\ lower iv <= median <= upper iv /\
             item iv = x /\
             (if q <? median then lower iv <= q else q <= upper iv).
Proof.
  unfold query. destruct (q <? median) eqn:Hq; rewrite in_map_iff; split.
  - intros [iv [Hx Hin]]. apply scan_sound in Hin. destruct Hin as [Hk Hin].
    apply sort_In, hit_of_In in Hin. apply Z.leb_le in Hk.
    exists iv. tauto.
  - intros [iv [Hin [Hc [Hx Hk]]]]. exists iv. split; [exact Hx|].
    apply (scan_complete (fun a b => lower a <= lower b)).
    + intros a b Hab Hb. apply Z.leb_le. apply Z.leb_le in Hb. lia.
    + apply left_list_sorted.
    + apply sort_In, hit_of_In. tauto.
    + apply Z.leb_le, Hk.
  - intros [iv [Hx Hin]]. apply scan_sound in Hin. destruct Hin as [Hk Hin].
    apply sort_In, hit_of_In in Hin. apply Z.geb_le in Hk.
    exists iv. tauto.
  - intros [iv [Hin [Hc [Hx Hk]]]]. exists iv. split; [exact Hx|].
    apply (scan_complete (fun a b => upper b <= upper a)).
    + intros a b Hab Hb. apply Z.geb_le. apply Z.geb_le in Hb. lia.
    + apply right_list_sorted.
    + apply sort_In, hit_of_In. tauto.
    + apply Z.geb_le, Hk.
Qed.

(** An interval left over by a node has an endpoint on the side the
    query goes to. *)
Lemma rem_left_eps median intervals iv :
  In iv intervals -> lower iv < median \/ upper iv < median ->
  (child_eps intervals median).1 <> [].
Proof.
  intros Hin Hm Hnil.
  assert (H : exists x, In x (child_eps intervals median).1).
  { destruct Hm as [Hm|Hm]; [exists (lower iv) | exists (upper iv)];
      (apply child_eps_left; split; [|lia]);
      apply endpoints_In; exists iv; auto. }
  rewrite Hnil in H. destruct H as [x []].
Qed.

Lemma rem_right_eps median intervals iv :
  In iv intervals -> median <= lower iv \/ median <= upper iv ->
  (child_eps intervals median).2 <> [].
Proof.
  intros Hin Hm Hnil.
  assert (H : exists x, In x (child_eps intervals median).2).
  { destruct Hm as [Hm|Hm]; [exists (lower iv) | exists (upper iv)];
      (apply child_eps_right; split; [|lia]);
      apply endpoints_In; exists iv; auto. }
  rewrite Hnil in H. destruct H as [x []].
Qed.

(** Destructs a successful build step into its two recursive calls. *)
Ltac build_inv Hb ln rn Hln Hrn :=
  rewrite build_step in Hb; cbv zeta in Hb;
  destruct (_recursive_build _ _ (child_eps _ _).1) as [ln|] eqn:Hln;
    [|discriminate Hb];
  destruct (_recursive_build _ _ (child_eps _ _).2) as [rn|] eqn:Hrn;
    [|discriminate Hb];
  injection Hb as <-.

(** *** Point queries *)

Lemma query_points_sound q fuel :
  forall intervals eps node,
    _recursive_build fuel intervals eps = Some node ->
    forall x, In x (_query_points node q) ->
    exists iv, In iv intervals /\ item iv = x /\ contains iv q.
Proof.
  induction fuel as [|fuel IH]; intros intervals eps node Hb x Hx;
    [discriminate|].
  destruct eps as [|e eps]; [injection Hb as <-; destruct Hx|].
  build_inv Hb ln rn Hln Hrn.
  set (median := median_of (e :: eps)) in *.
  cbn [_query_points] in Hx. apply in_app_iff in Hx.
  destruct Hx as [Hx|Hx].
  - apply node_query_iff in Hx. destruct Hx as [iv [Hin [Hc [Hi Hk]]]].
    exists iv. unfold contains.
    destruct (q <? median) eqn:Hq;
      [apply Z.ltb_lt in Hq | apply Z.ltb_ge in Hq];
      (split; [exact Hin | split; [exact Hi | lia]]).
  - assert (Hsub : exists iv, In iv (rem_of median intervals) /\
                              item iv = x /\ contains iv q).
    { destruct (q <? median); [apply (IH _ _ _ Hln) | apply (IH _ _ _ Hrn)];
        exact Hx. }
    destruct Hsub as [iv [Hin Hrest]]. exists iv.
    apply rem_of_In in Hin. tauto.
Qed.

Lemma query_points_complete q fuel :
  forall intervals eps node,
    _recursive_build fuel intervals eps = Some node ->
    eps <> [] ->
    forall iv, In iv intervals -> contains iv q ->
    In (item iv) (_query_points node q).
Proof.
  induction fuel as [|fuel IH]; intros intervals eps node Hb Hne iv Hin Hq;
    [discriminate|].
  destruct eps as [|e eps]; [congruence|].
  build_inv Hb ln rn Hln Hrn.
  set (median := median_of (e :: eps)) in *.
  cbn [_query_points]. apply in_app_iff. unfold contains in Hq.
  destruct (Z_le_dec (lower iv) median) as [H1|H1];
    [destruct (Z_le_dec median (upper iv)) as [H2|H2]|].
  - left. apply node_query_iff. exists iv.
    destruct (q <? median); (repeat split; [exact Hin | lia ..]).
  - right. assert (Hlt : q < median) by lia.
    apply Z.ltb_lt in Hlt as Hb'. rewrite Hb'.
    apply (IH _ _ _ Hln).
    + apply (rem_left_eps median intervals iv); [exact Hin | lia].
    + apply rem_of_In. split; [exact Hin | lia].
    + unfold contains. lia.
  - right. assert (Hge : median <= q) by lia.
    apply Z.ltb_ge in Hge as Hb'. rewrite Hb'.
    apply (IH _ _ _ Hrn).
    + apply (rem_right_eps median intervals iv); [exact Hin | lia].
    + apply rem_of_In. split; [exact Hin | lia].
    + unfold contains. lia.
Qed.

(** *** Range queries *)

Lemma query_range_sound lo hi fuel :
  lo <= hi ->
  forall intervals eps node,
    _recursive_build fuel intervals eps = Some node ->
    forall x, In x (_query_range (lo, hi) node) ->
    exists iv, In iv intervals /\ item iv = x /\ overlaps iv lo hi.
Proof.
  intros Hlh.
  induction fuel as [|fuel IH]; intros intervals eps node Hb x Hx;
    [discriminate|].
  destruct eps as [|e eps]; [injection Hb as <-; destruct Hx|].
  build_inv Hb ln rn Hln Hrn.
  set (median := median_of (e :: eps)) in *.
  assert (Hsub : forall fuel' E sub,
            _recursive_build fuel' (rem_of median intervals) E = Some sub ->
            (forall y, In y (_query_range (lo, hi) sub) ->
               exists iv, In iv (rem_of median intervals) /\ item iv = y /\
                          overlaps iv lo hi) ->
            In x (_query_range (lo, hi) sub) ->
            exists iv, In iv intervals /\ item iv = x /\ overlaps iv lo hi).
  { intros _ E sub _ Hall Hin. destruct (Hall x Hin) as [iv [Hr Hrest]].
    exists iv. apply rem_of_In in Hr. tauto. }
  cbn [_query_range fst snd] in Hx.
  destruct (median <? lo) eqn:H1; [|destruct (median >? hi) eqn:H2].
  - apply Z.ltb_lt in H1. apply in_app_iff in Hx. destruct Hx as [Hx|Hx].
    + apply (Hsub _ _ _ Hrn); [apply (IH _ _ _ Hrn) | exact Hx].
    + apply node_query_iff in Hx. destruct Hx as [iv [Hin [Hc [Hi Hk]]]].
      assert (Hq : (lo <? median) = false) by (apply Z.ltb_ge; lia).
      rewrite Hq in Hk. exists iv. unfold overlaps.
      split; [exact Hin | split; [exact Hi | lia]].
  - apply Z.gtb_lt in H2. apply in_app_iff in Hx. destruct Hx as [Hx|Hx].
    + apply (Hsub _ _ _ Hln); [apply (IH _ _ _ Hln) | exact Hx].
    + apply node_query_iff in Hx. destruct Hx as [iv [Hin [Hc [Hi Hk]]]].
      assert (Hq : (hi <? median) = true) by (apply Z.ltb_lt; lia).
      rewrite Hq in Hk. exists iv. unfold overlaps.
      split; [exact Hin | split; [exact Hi | lia]].
  - apply Z.ltb_ge in H1. assert (median <= hi) by lia.
    apply in_app_iff in Hx. destruct Hx as [Hx|Hx].
    + apply node_query_iff in Hx. destruct Hx as [iv [Hin [Hc [Hi Hk]]]].
      exists iv. unfold overlaps.
      split; [exact Hin | split; [exact Hi | lia]].
    + apply in_app_iff in Hx. destruct Hx as [Hx|Hx].
      * apply (Hsub _ _ _ Hln); [apply (IH _ _ _ Hln) | exact Hx].
      * apply (Hsub _ _ _ Hrn); [apply (IH _ _ _ Hrn) | exact Hx].
Qed.

Lemma query_range_complete lo hi fuel :
  forall intervals eps node,
    _recursive_build fuel intervals eps = Some node ->
    eps <> [] ->
    forall iv, In iv intervals -> overlaps iv lo hi ->
    In (item iv) (_query_range (lo, hi) node).
Proof.
  induction fuel as [|fuel IH]; intros intervals eps node Hb Hne iv Hin Hov;
    [discriminate|].
  destruct eps as [|e eps]; [congruence|].
  build_inv Hb ln rn Hln Hrn.
  set (median := median_of (e :: eps)) in *.
  unfold overlaps in Hov.
  assert (Hleft : upper iv < median ->
                  In (item iv) (_query_range (lo, hi) ln)).
  { intros Hl. assert (Hnc : ~ (lower iv <= median <= upper iv)) by lia.
    apply (IH _ _ _ Hln).
    - apply (rem_left_eps median intervals iv); [exact Hin | lia].
    - apply rem_of_In. tauto.
    - exact Hov. }
  assert (Hright : median < lower iv ->
                   In (item iv) (_query_range (lo, hi) rn)).
  { intros Hu. assert (Hnc : ~ (lower iv <= median <= upper iv)) by lia.
    apply (IH _ _ _ Hrn).
    - apply (rem_right_eps median intervals iv); [exact Hin | lia].
    - apply rem_of_In. tauto.
    - exact Hov. }
  cbn [_query_range fst snd].
  destruct (Z_le_dec (lower iv) median) as [H1|H1];
    [destruct (Z_le_dec median (upper iv)) as [H2|H2]|].
  - (* centered *)
    destruct (median <? lo) eqn:C1; [|destruct (median >? hi) eqn:C2].
    + apply Z.ltb_lt in C1. apply in_app_iff. right.
      apply node_query_iff. exists iv.
      assert (Hq : (lo <? median) = false) by (apply Z.ltb_ge; lia).
      rewrite Hq. repeat split; [exact Hin | lia ..].
    + apply Z.gtb_lt in C2. apply in_app_iff. right.
      apply node_query_iff. exists iv.
      assert (Hq : (hi <? median) = true) by (apply Z.ltb_lt; lia).
      rewrite Hq. repeat split; [exact Hin | lia ..].
    + apply in_app_iff. left. apply node_query_iff. exists iv.
      rewrite Z.ltb_irrefl. repeat split; [exact Hin | lia ..].
  - (* wholly below the median *)
    assert (Hl : In (item iv) (_query_range (lo, hi) ln))
      by (apply Hleft; lia).
    destruct (median <? lo) eqn:C1; [|destruct (median >? hi) eqn:C2].
    + apply Z.ltb_lt in C1. lia.
    + apply in_app_iff. left. exact Hl.
    + apply in_app_iff. right. apply in_app_iff. left. exact Hl.
  - (* wholly above the median *)
    assert (Hr : In (item iv) (_query_range (lo, hi) rn))
      by (apply Hright; lia).
    destruct (median <? lo) eqn:C1; [|destruct (median >? hi) eqn:C2].
    + apply in_app_iff. left. exact Hr.
    + apply Z.gtb_lt in C2. lia.
    + apply in_app_iff. right. apply in_app_iff. right. exact Hr.
Qed.

(** *** The build as a whole *)

Lemma valid_no_bad intervals :
  valid intervals ->
  List.filter (fun i => lower i >? upper i) intervals = [].
Proof.
  unfold valid. induction 1 as [|iv l Hiv Hl IH]; simpl; [reflexivity|].
  assert (Hb : (lower iv >? upper iv) = false) by lia.
  rewrite Hb. exact IH.
Qed.

Lemma invalid_has_bad intervals :
  (exists iv, In iv intervals /\ lower iv > upper iv) ->
  List.filter (fun i => lower i >? upper i) intervals <> [].
Proof.
  intros [iv [Hin Hbad]] Hnil.
  assert (H : In iv (List.filter (fun i => lower i >? upper i) intervals)).
  { apply filter_In. split; [exact Hin | lia]. }
  rewrite Hnil in H. destruct H.
Qed.

Lemma endpoints_nonempty intervals iv :
  In iv intervals -> endpoints intervals <> [].
Proof.
  intros Hin Hnil.
  assert (H : In (lower iv) (endpoints intervals))
    by (apply endpoints_In; exists iv; auto).
  rewrite Hnil in H. destruct H.
Qed.

(** On a valid batch the constructor returns, and returns the same tree
    whatever fuel above [2 * len(intervals)] it is given. *)
Lemma init_returns intervals :
  valid intervals ->
  exists node,
    _recursive_build (2 * length intervals + 1) intervals
      (endpoints intervals) = Some node /\
    forall fuel, (2 * length intervals < fuel)%nat ->
      __init__ fuel intervals = (Tree (Some node), Returned tt).
Proof.
  intros Hv.
  destruct (build_total (2 * length intervals + 1) intervals
              (endpoints intervals) Hv) as [node Hnode].
  { right. split; [auto | lia]. }
  exists node. split; [exact Hnode|].
  intros fuel Hfuel. unfold __init__, _build.
  rewrite (valid_no_bad intervals Hv).
  rewrite (build_mono _ _ _ _ Hnode fuel) by lia. reflexivity.
Qed.

(** C1.  On a batch of intervals with [lower <= upper] the constructor
    returns a tree, and the point query [query(q)] on it returns, as a
    set, exactly the items of the intervals with [lower <= q <= upper]. *)
Theorem point_query_contains intervals (q : Z) :
  valid intervals ->
  exists node,
    (forall fuel, (2 * length intervals < fuel)%nat ->
       __init__ fuel intervals = (Tree (Some node), Returned tt)) /\
    forall x,
      In x (tree_query node (Point q)) <->
      exists iv, In iv intervals /\ item iv = x /\ contains iv q.
Proof.
  intros Hv. destruct (init_returns intervals Hv) as [node [Hb Hinit]].
  exists node. split; [exact Hinit|].
  intros x. cbn [tree_query]. split.
  - apply (query_points_sound q _ _ _ _ Hb).
  - intros [iv [Hin [<- Hq]]].
    apply (query_points_complete q _ _ _ _ Hb);
      [apply (endpoints_nonempty intervals iv Hin) | exact Hin | exact Hq].
Qed.

(** C2, as the source has it.  On a valid batch, the range query
    [query((lo, hi))] for a range with [lo <= hi] returns, as a set,
    exactly the items of the intervals with
    [not (upper < lo or lower > hi)]; the empty tree answers []. *)
Theorem range_query_overlaps intervals (lo hi : Z) :
  valid intervals -> lo <= hi ->
  tree_query (payload := payload) Empty (Range (lo, hi)) = [] /\
  exists node,
    (forall fuel, (2 * length intervals < fuel)%nat ->
       __init__ fuel intervals = (Tree (Some node), Returned tt)) /\
    forall x,
      In x (tree_query node (Range (lo, hi))) <->
      exists iv, In iv intervals /\ item iv = x /\ overlaps iv lo hi.
Proof.
  intros Hv Hlh. split; [reflexivity|].
  destruct (init_returns intervals Hv) as [node [Hb Hinit]].
  exists node. split; [exact Hinit|].
  intros x. cbn [tree_query]. split.
  - apply (query_range_sound lo hi _ Hlh _ _ _ Hb).
  - intros [iv [Hin [<- Hq]]].
    apply (query_range_complete lo hi _ _ _ _ Hb);
      [apply (endpoints_nonempty intervals iv Hin) | exact Hin | exact Hq].
Qed.

(** C3.  A batch with an interval whose lower bound exceeds its upper
    bound makes [_build] raise, whatever the fuel (so before any node is
    built), and leaves [self] as it was: the constructor ends with no
    root. *)
Theorem build_rejects_invalid intervals :
  (exists iv, In iv intervals /\ lower iv > upper iv) ->
  forall fuel,
    (forall self, _build fuel self intervals = (self, Raised InvalidInterval))
    /\ __init__ fuel intervals = (Tree None, Raised InvalidInterval).
Proof.
  intros Hbad fuel.
  assert (Hb : forall self,
             _build fuel self intervals = (self, Raised InvalidInterval)).
  { intros self. unfold _build.
    destruct (List.filter (fun i => lower i >? upper i) intervals) eqn:Hf;
      [|reflexivity].
    exfalso. exact (invalid_has_bad intervals Hbad Hf). }
  split; [exact Hb | apply Hb].
Qed.

(** C8, as the source has it.  At every step of the build the endpoint
    lists of the two recursive calls are cut from the endpoints of the
    whole interval list of that step ([intervals], centered intervals
    included): those below the median go to the left call, those from the
    median on to the right call. *)
Theorem child_endpoints_from_step_intervals fuel intervals e eps :
  _recursive_build (S fuel) intervals (e :: eps) =
  let median := median_of (e :: eps) in
  match _recursive_build fuel (rem_of median intervals)
          (List.filter (fun x => x <? median) (endpoints intervals)),
        _recursive_build fuel (rem_of median intervals)
          (List.filter (fun x => negb (x <? median)) (endpoints intervals))
  with
  | Some ln, Some rn =>
      Some (MkNode median
              (sort (fun a b => sign (lower a - lower b))
                 (hit_of median intervals))
              (sort (fun a b => sign (upper b - upper a))
                 (hit_of median intervals))
              ln rn)
  | _, _ => None
  end.
Proof.
  rewrite build_step. cbv zeta. rewrite child_eps_filter. reflexivity.
Qed.

(** C9, as the source has it.  The value of a node built from the
    endpoint list [eps] is the element of [eps] at index [len(eps)/2];
    in a list of even length this is the upper of the two middle
    elements: one more element stands before it than after it. *)
Theorem median_is_upper_middle fuel intervals eps val ll rl ln rn :
  _recursive_build fuel intervals eps = Some (MkNode val ll rl ln rn) ->
  exists before after,
    eps = before ++ val :: after /\
    length before = (length eps / 2)%nat /\
    (Nat.even (length eps) = true -> length before = S (length after)) /\
    (Nat.even (length eps) = false -> length before = length after).
Proof.
  intros Hb. destruct fuel as [|fuel]; [discriminate|].
  destruct eps as [|e eps]; [discriminate|].
  build_inv Hb l1 r1 Hl1 Hr1.
  set (E := e :: eps) in *.
  assert (Hk : (length E / 2 < length E)%nat)
    by (apply Nat.Div0.div_lt_upper_bound; simpl; lia).
  exists (firstn (length E / 2) E), (skipn (S (length E / 2)) E).
  assert (Hlb : length (firstn (length E / 2) E) = (length E / 2)%nat)
    by (rewrite length_firstn; lia).
  assert (Hla : length (skipn (S (length E / 2)) E)
                = (length E - S (length E / 2))%nat)
    by (rewrite length_skipn; lia).
  split; [|split; [exact Hlb | split]].
  - unfold median_of.
    rewrite <- (firstn_skipn (length E / 2) E) at 1. f_equal.
    clearbody E. clear - Hk. revert Hk. generalize (length E / 2)%nat.
    induction E as [|x E IH]; intros [|k] Hk; simpl in *; try lia;
      [reflexivity|].
    apply IH. lia.
  - intros Hev. rewrite Hlb, Hla. apply Nat.even_spec in Hev.
    destruct Hev as [k Hk']. rewrite Hk' in *.
    replace (2 * k / 2)%nat with k
      by (symmetry; rewrite Nat.mul_comm; apply Nat.div_mul; lia).
    assert (2 * k / 2 = k)%nat
      by (rewrite Nat.mul_comm; apply Nat.div_mul; lia).
    lia.
  - intros Hod. rewrite Hlb, Hla.
    assert (Hodd : Nat.odd (length E) = true)
      by (rewrite <- Nat.negb_even, Hod; reflexivity).
    apply Nat.odd_spec in Hodd. destruct Hodd as [k Hk'].
    rewrite Hk' in *.
    assert ((2 * k + 1) / 2 = k)%nat.
    { symmetry. apply (Nat.div_unique (2 * k + 1) 2 k 1); lia. }
    lia.
Qed.

End Facts.

Import Examples.

Example doctest_range_query :
  exists node,
    __init__ 7 doc_intervals = (Tree (Some node), Returned tt) /\
    tree_query node (Range (7, 14)) = ["B"%string] /\
    tree_query node (Point 1) = ["A"%string].
Proof. eexists. vm_compute. repeat split. Qed.

Lemma doc_intervals_valid : valid doc_intervals.
Proof. unfold valid, doc_intervals. repeat constructor; simpl; lia. Qed.

Lemma point_query_contains_witness :
  valid doc_intervals /\
  exists node,
    (forall fuel, (2 * length doc_intervals < fuel)%nat ->
       __init__ fuel doc_intervals = (Tree (Some node), Returned tt)) /\
    forall x,
      In x (tree_query node (Point 1)) <->
      exists iv, In iv doc_intervals /\ item iv = x /\ contains iv 1.
Proof.
  split; [exact doc_intervals_valid|].
  apply (point_query_contains doc_intervals 1). exact doc_intervals_valid.
Defined.

Lemma range_query_overlaps_witness :
  valid doc_intervals /\ 7 <= 14 /\
  (tree_query (payload := string) Empty (Range (7, 14)) = [] /\
   exists node,
     (forall fuel, (2 * length doc_intervals < fuel)%nat ->
        __init__ fuel doc_intervals = (Tree (Some node), Returned tt)) /\
     forall x,
       In x (tree_query node (Range (7, 14))) <->
       exists iv, In iv doc_intervals /\ item iv = x /\ overlaps iv 7 14).
Proof.
  split; [exact doc_intervals_valid|]. split; [lia|].
  apply (range_query_overlaps doc_intervals 7 14);
    [exact doc_intervals_valid | lia].
Defined.

(** C2, as stated for every pair [(lo, hi)], fails.  [query] takes any
    tuple: [query((9, 2))] on [(6, 10, 'A'), (7, 7, 'B')] answers ['A']
    (the root has value 7, below 9, and its interval 'A' reaches up to
    10), and no interval has [not (upper < 9 or lower > 2)]. *)
Lemma inverted_range_differs :
  exists node,
    __init__ 5 two_intervals = (Tree (Some node), Returned tt) /\
    tree_query node (Range (9, 2)) = ["A"%string] /\
    forall iv, In iv two_intervals -> ~ overlaps iv 9 2.
Proof.
  eexists. split; [vm_compute; reflexivity|]. split; [reflexivity|].
  intros iv [<-|[<-|[]]]; unfold overlaps; simpl; lia.
Qed.

Lemma build_rejects_invalid_witness :
  (exists iv, In iv [Interval 5 3 "A"%string; Interval 0 1 "B"%string] /\
              lower iv > upper iv) /\
  forall fuel,
    (forall self,
       _build fuel self [Interval 5 3 "A"%string; Interval 0 1 "B"%string]
       = (self, Raised InvalidInterval)) /\
    __init__ fuel [Interval 5 3 "A"%string; Interval 0 1 "B"%string]
    = (Tree None, Raised InvalidInterval).
Proof.
  assert (Hbad : exists iv,
             In iv [Interval 5 3 "A"%string; Interval 0 1 "B"%string] /\
             lower iv > upper iv).
  { exists (Interval 5 3 "A"%string). split; [left; reflexivity | simpl; lia]. }
  split; [exact Hbad|].
  apply (build_rejects_invalid
           [Interval 5 3 "A"%string; Interval 0 1 "B"%string] Hbad).
Defined.

(** C8, as the specification words it, fails.  On [(0, 10, 'A')] the
    median is 10, the interval is centered and nothing remains; the source
    still hands the endpoints [0] and [10] of the whole list to the
    recursive calls, which build two nodes with empty lists, where the
    endpoints of the remaining intervals would be none and the children
    empty. *)
Lemma child_endpoints_not_from_remaining :
  child_eps one_interval 10 = ([0], [10]) /\
  child_eps (rem_of 10 one_interval) 10 = ([], []) /\
  _recursive_build 3 one_interval [0; 10] =
    Some (MkNode 10 one_interval one_interval
            (MkNode 0 [] [] Empty Empty) (MkNode 10 [] [] Empty Empty)) /\
  spec_recursive_build 3 one_interval [0; 10] =
    Some (MkNode 10 one_interval one_interval Empty Empty) /\
  _recursive_build 3 one_interval [0; 10]
  <> spec_recursive_build 3 one_interval [0; 10].
Proof.
  repeat split; try (vm_compute; reflexivity).
  vm_compute. discriminate.
Qed.

(** C9, as the specification words it, fails: of the two endpoints
    [0; 10] the node takes 10, the upper one. *)
Lemma median_not_lower_middle :
  ~ (forall fuel (intervals : list (interval string)) eps val ll rl ln rn,
       _recursive_build fuel intervals eps = Some (MkNode val ll rl ln rn) ->
       Nat.even (length eps) = true ->
       val = lower_middle eps).
Proof.
  intros H.
  specialize (H 3%nat one_interval [0; 10] 10 one_interval one_interval
                (MkNode 0 [] [] Empty Empty) (MkNode 10 [] [] Empty Empty)).
  assert (Hv : 10 = lower_middle [0; 10]) by (apply H; reflexivity).
  vm_compute in Hv. discriminate Hv.
Qed.

Lemma median_is_upper_middle_witness :
  _recursive_build 3 one_interval [0; 10] =
    Some (MkNode 10 one_interval one_interval
            (MkNode 0 [] [] Empty Empty) (MkNode 10 [] [] Empty Empty)) /\
  exists before after,
    [0; 10] = before ++ 10 :: after /\
    length before = (length [0; 10] / 2)%nat /\
    (Nat.even (length [0; 10]) = true -> length before = S (length after)) /\
    (Nat.even (length [0; 10]) = false -> length before = length after).
Proof.
  split; [reflexivity|].
  apply (median_is_upper_middle 3 one_interval [0; 10] 10 one_interval
           one_interval (MkNode 0 [] [] Empty Empty)
           (MkNode 10 [] [] Empty Empty)).
  reflexivity.
Defined.

End IntervalTreeSpec.
(** * Properties of the grid *)

Module GridSpec.
Import Grid.

Section Facts.
Context {item : Type} `{EqDecision item}.
Implicit Types (g : t item) (x : item) (pt : Point).
Implicit Types (l : list (Point * item)) (k : Z * Z).

(** *** [list.remove] *)

Lemma list_remove_split {A : Type} `{EqDecision A} (a : A) (xs ys : list A) :
  list_remove a xs = Some ys ->
  exists xs1 xs2, xs = xs1 ++ a :: xs2 /\ ys = xs1 ++ xs2 /\ ~ In a xs1.
Proof.
  revert ys. induction xs as [|b xs IH]; intros ys Hr; simpl in Hr;
    [discriminate|].
  destruct (decide (b = a)) as [->|Hne].
  - injection Hr as <-. exists [], xs. simpl. tauto.
  - destruct (list_remove a xs) as [r|] eqn:Hrec; [|discriminate].
    injection Hr as <-. destruct (IH r eq_refl) as [xs1 [xs2 [-> [-> Hn]]]].
    exists (b :: xs1), xs2. simpl. intuition congruence.
Qed.

Lemma list_remove_present {A : Type} `{EqDecision A} (a : A) (xs : list A) :
  In a xs -> exists ys, list_remove a xs = Some ys.
Proof.
  induction xs as [|b xs IH]; simpl; [tauto|]. intros Hin.
  destruct (decide (b = a)) as [->|Hne]; [eexists; reflexivity|].
  destruct IH as [ys Hys]; [destruct Hin; [congruence | assumption]|].
  rewrite Hys. eexists; reflexivity.
Qed.

Lemma list_remove_absent {A : Type} `{EqDecision A} (a : A) (xs : list A) :
  ~ In a xs -> list_remove a xs = None.
Proof.
  intros Hn. destruct (list_remove a xs) as [ys|] eqn:Hr; [|reflexivity].
  destruct (list_remove_split a xs ys Hr) as [l1 [l2 [-> _]]].
  exfalso. apply Hn, in_app_iff. right. left. reflexivity.
Qed.

(** *** The fields other than [hash] never change *)

Lemma grid_loc_set_hash g h pt : __grid_loc (set_hash g h) pt = __grid_loc g pt.
Proof. reflexivity. Qed.

Lemma in_grid_set_hash g h pt : in_grid (set_hash g h) pt = in_grid g pt.
Proof. reflexivity. Qed.

Lemma add_set_hash g x pt : exists h, (add g x pt).1 = set_hash g h.
Proof.
  unfold add. destruct (negb (in_grid g pt)).
  - exists (hash g). destruct g; reflexivity.
  - destruct (hash g !! __grid_loc g pt); eexists; reflexivity.
Qed.

Lemma remove_set_hash g x pt : exists h, (remove g x pt).1 = set_hash g h.
Proof.
  assert (Hid : g = set_hash g (hash g)) by (destruct g; reflexivity).
  unfold remove. destruct (negb (in_grid g pt)); [exists (hash g); exact Hid|].
  destruct (hash g !! __grid_loc g pt) as [l|]; [|exists (hash g); exact Hid].
  destruct (list_remove (pt, x) l) as [[|y l']|];
    [eexists; reflexivity | eexists; reflexivity | exists (hash g); exact Hid].
Qed.

(** *** What [add] and [remove] do to the buckets *)

Lemma add_in_grid g x pt :
  in_grid g pt = true ->
  add g x pt =
  (set_hash g (<[__grid_loc g pt := bucket g (__grid_loc g pt) ++ [(pt, x)]]>
                 (hash g)),
   Returned x).
Proof.
  intros Hin. unfold add, bucket. rewrite Hin. simpl.
  destruct (hash g !! __grid_loc g pt); reflexivity.
Qed.

Lemma add_out_of_grid g x pt :
  in_grid g pt = false -> add g x pt = (g, Raised OutOfBounds).
Proof. intros Hin. unfold add. rewrite Hin. reflexivity. Qed.

Lemma remove_out_of_grid g x pt :
  in_grid g pt = false -> remove g x pt = (g, Raised OutOfBounds).
Proof. intros Hin. unfold remove. rewrite Hin. reflexivity. Qed.

Lemma bucket_insert g k l k' :
  bucket (set_hash g (<[k := l]> (hash g))) k' =
  if decide (k = k') then l else bucket g k'.
Proof.
  unfold bucket. simpl. destruct (decide (k = k')) as [->|Hne].
  - rewrite lookup_insert_eq. reflexivity.
  - rewrite lookup_insert_ne by exact Hne. reflexivity.
Qed.

Lemma bucket_delete g k k' :
  bucket (set_hash g (delete k (hash g))) k' =
  if decide (k = k') then [] else bucket g k'.
Proof.
  unfold bucket. simpl. destruct (decide (k = k')) as [->|Hne].
  - rewrite lookup_delete_eq. reflexivity.
  - rewrite lookup_delete_ne by exact Hne. reflexivity.
Qed.

(** The bucket of every cell after a call of [remove] that returns. *)
Lemma remove_returns g x pt l l' :
  in_grid g pt = true ->
  hash g !! __grid_loc g pt = Some l ->
  list_remove (pt, x) l = Some l' ->
  exists g',
    remove g x pt = (g', Returned x) /\
    (exists h, g' = set_hash g h) /\
    forall k', bucket g' k' =
               if decide (__grid_loc g pt = k') then l' else bucket g k'.
Proof.
  intros Hin Hl Hr. unfold remove. rewrite Hin, Hl, Hr. simpl.
  destruct l' as [|y l'].
  - eexists. split; [reflexivity|]. split; [eexists; reflexivity|].
    intros k'. apply bucket_delete.
  - eexists. split; [reflexivity|]. split; [eexists; reflexivity|].
    intros k'. apply bucket_insert.
Qed.

(** *** The invariant *)

Lemma stored_bucket g pt x :
  stored g pt x <-> exists k, In (pt, x) (bucket g k).
Proof.
  unfold stored, bucket. split.
  - intros [k [l [Hl Hin]]]. exists k. rewrite Hl. exact Hin.
  - intros [k Hin]. destruct (hash g !! k) as [l|] eqn:Hl; [|destruct Hin].
    exists k, l. auto.
Qed.

Lemma inv_bucket g :
  inv g <->
  forall k pt x, In (pt, x) (bucket g k) ->
    __grid_loc g pt = k /\ in_grid g pt = true.
Proof.
  unfold inv, bucket. split.
  - intros Hi k pt x Hin.
    destruct (hash g !! k) as [l|] eqn:Hl; [|destruct Hin].
    apply (Hi k l Hl pt x Hin).
  - intros Hi k l Hl pt x Hin. apply (Hi k pt x). rewrite Hl. exact Hin.
Qed.

Lemma add_inv g x pt : inv g -> inv (add g x pt).1.
Proof.
  intros Hi. destruct (in_grid g pt) eqn:Hin.
  - rewrite (add_in_grid g x pt Hin). simpl.
    apply inv_bucket. intros k q y Hq.
    rewrite grid_loc_set_hash, in_grid_set_hash.
    rewrite bucket_insert in Hq.
    destruct (decide (__grid_loc g pt = k)) as [<-|Hne].
    + apply in_app_iff in Hq. destruct Hq as [Hq|[Hq|[]]].
      * apply (proj1 (inv_bucket g) Hi _ _ _ Hq).
      * injection Hq as <- <-. auto.
    + apply (proj1 (inv_bucket g) Hi _ _ _ Hq).
  - rewrite (add_out_of_grid g x pt Hin). exact Hi.
Qed.

Lemma remove_inv g x pt : inv g -> inv (remove g x pt).1.
Proof.
  intros Hi. destruct (in_grid g pt) eqn:Hin;
    [|rewrite (remove_out_of_grid g x pt Hin); exact Hi].
  destruct (hash g !! __grid_loc g pt) as [l|] eqn:Hl;
    [|unfold remove; rewrite Hin, Hl; exact Hi].
  destruct (list_remove (pt, x) l) as [l'|] eqn:Hr;
    [|unfold remove; rewrite Hin, Hl, Hr; exact Hi].
  destruct (remove_returns g x pt l l' Hin Hl Hr) as [g' [Hg' [[h Hh] Hb]]].
  rewrite Hg'. simpl. apply inv_bucket. intros k q y Hq.
  rewrite Hh, grid_loc_set_hash, in_grid_set_hash.
  rewrite Hb in Hq.
  destruct (decide (__grid_loc g pt = k)) as [<-|Hne].
  - destruct (list_remove_split _ _ _ Hr) as [l1 [l2 [-> [-> _]]]].
    apply (Hi _ _ Hl q y). apply in_app_iff. apply in_app_iff in Hq.
    destruct Hq; [left | right; right]; assumption.
  - apply (proj1 (inv_bucket g) Hi _ _ _ Hq).
Qed.

(** *** The cells a query visits *)

Lemma xrange_In (a b i : Z) : In i (xrange a (b + 1)) <-> a <= i <= b.
Proof.
  unfold xrange. rewrite <- list_elem_of_In, elem_of_seqZ. lia.
Qed.

Lemma scan_cells_bucket {B : Type} g (ll ur : Z * Z)
    (f : list (Point * item) -> list B) :
  f [] = [] ->
  scan_cells g ll ur f =
  flat_map (fun i =>
    flat_map (fun j => f (bucket g (i, j))) (xrange ll.2 (ur.2 + 1)))
    (xrange ll.1 (ur.1 + 1)).
Proof.
  intros Hf. unfold scan_cells, bucket.
  apply flat_map_ext. intros i. apply flat_map_ext. intros j.
  destruct (hash g !! (i, j)); [reflexivity | symmetry; exact Hf].
Qed.

Lemma scan_cells_In {B : Type} g (ll ur : Z * Z)
    (f : list (Point * item) -> list B) (b : B) :
  f [] = [] ->
  In b (scan_cells g ll ur f) <->
  exists i j, ll.1 <= i <= ur.1 /\ ll.2 <= j <= ur.2 /\
              In b (f (bucket g (i, j))).
Proof.
  intros Hf. rewrite (scan_cells_bucket g ll ur f Hf), in_flat_map. split.
  - intros [i [Hi Hb]]. apply in_flat_map in Hb. destruct Hb as [j [Hj Hb]].
    apply xrange_In in Hi. apply xrange_In in Hj. exists i, j. auto.
  - intros [i [j [Hi [Hj Hb]]]]. exists i. split; [apply xrange_In, Hi|].
    apply in_flat_map. exists j. split; [apply xrange_In, Hj | exact Hb].
Qed.

(** *** The cell of a point grows with the point *)

Lemma grid_loc_mono g (a b : Point) :
  0 < res g -> a.1 <= b.1 -> a.2 <= b.2 ->
  (__grid_loc g a).1 <= (__grid_loc g b).1 /\
  (__grid_loc g a).2 <= (__grid_loc g b).2.
Proof.
  intros Hres H1 H2. unfold __grid_loc. simpl.
  assert (D1 : (a.1 - (x_range g).1) / res g <= (b.1 - (x_range g).1) / res g)
    by (apply Z.div_le_mono; lia).
  assert (D2 : (a.2 - (y_range g).1) / res g <= (b.2 - (y_range g).1) / res g)
    by (apply Z.div_le_mono; lia).
  lia.
Qed.

(** With a negative resolution the grid has a single cell. *)
Lemma grid_loc_const g (a : Point) :
  consistent g -> res g < 0 ->
  (x_range g).1 <= (x_range g).2 -> (y_range g).1 <= (y_range g).2 ->
  __grid_loc g a = (i_range g, j_range g).
Proof.
  intros [_ [Hi Hj]] Hres Hx Hy. unfold __grid_loc.
  assert (Hneg : forall n, 0 <= n -> n / res g <= 0).
  { intros n Hn. rewrite <- (Z.div_opp_opp n (res g)) by lia.
    assert (Hd : - n / - res g <= 0 / - res g)
      by (apply Z.div_le_mono; lia).
    rewrite Z.div_0_l in Hd by lia. exact Hd. }
  assert (I0 : i_range g <= 0) by (rewrite Hi; apply Hneg; lia).
  assert (J0 : j_range g <= 0) by (rewrite Hj; apply Hneg; lia).
  f_equal; lia.
Qed.

Lemma in_grid_spec g pt :
  in_grid g pt = true <->
  (x_range g).1 <= pt.1 <= (x_range g).2 /\
  (y_range g).1 <= pt.2 <= (y_range g).2.
Proof. unfold in_grid. rewrite !andb_true_iff, !Z.leb_le. tauto. Qed.

(** A point inside a box has its cell between the cells of the corners of
    the box. *)
Lemma cell_in_range g (a b : Point) pt :
  consistent g -> 0 < res g \/ in_grid g pt = true ->
  a.1 <= pt.1 <= b.1 -> a.2 <= pt.2 <= b.2 ->
  (__grid_loc g a).1 <= (__grid_loc g pt).1 <= (__grid_loc g b).1 /\
  (__grid_loc g a).2 <= (__grid_loc g pt).2 <= (__grid_loc g b).2.
Proof.
  intros Hc Hcase H1 H2.
  destruct (Z_lt_dec 0 (res g)) as [Hpos|Hneg].
  - destruct (grid_loc_mono g a pt Hpos) as [A1 A2]; [lia | lia|].
    destruct (grid_loc_mono g pt b Hpos) as [B1 B2]; [lia | lia|].
    lia.
  - destruct Hcase as [Hpos|Hin]; [lia|].
    apply in_grid_spec in Hin.
    assert (Hres : res g < 0) by (destruct Hc as [Hc _]; lia).
    rewrite !(grid_loc_const g _ Hc Hres) by lia. simpl. lia.
Qed.

(** A stored pair inside the box of a scan is put through the function of
    the scan. *)
Lemma scan_box_complete {B : Type} g (a b : Point)
    (f : list (Point * item) -> list B) pt x (y : B) :
  consistent g -> inv g -> 0 < res g \/ in_grid g pt = true ->
  stored g pt x ->
  a.1 <= pt.1 <= b.1 -> a.2 <= pt.2 <= b.2 ->
  f [] = [] ->
  (forall l, In (pt, x) l -> In y (f l)) ->
  In y (scan_cells g (__grid_loc g a) (__grid_loc g b) f).
Proof.
  intros Hc Hi Hcase Hs H1 H2 Hf Hy.
  apply stored_bucket in Hs. destruct Hs as [k Hk].
  destruct (proj1 (inv_bucket g) Hi k pt x Hk) as [Hloc Hin].
  apply (scan_cells_In g _ _ f y Hf).
  exists (__grid_loc g pt).1, (__grid_loc g pt).2.
  destruct (cell_in_range g a b pt Hc Hcase H1 H2) as [C1 C2].
  split; [exact C1|]. split; [exact C2|].
  apply Hy. rewrite <- surjective_pairing, Hloc. exact Hk.
Qed.

(** What a scan returns comes from a stored pair. *)
Lemma scan_cells_sound {B : Type} g (ll ur : Z * Z)
    (f : list (Point * item) -> list B) (y : B) :
  f [] = [] ->
  In y (scan_cells g ll ur f) ->
  exists k, In y (f (bucket g k)).
Proof.
  intros Hf Hy. apply (scan_cells_In g ll ur f y Hf) in Hy.
  destruct Hy as [i [j [_ [_ Hy]]]]. exists (i, j). exact Hy.
Qed.

(** *** Distances *)

Lemma dist_le_spec (n r : Z) : dist_le n r = true <-> 0 <= r /\ n <= r * r.
Proof. unfold dist_le. rewrite andb_true_iff, !Z.leb_le. tauto. Qed.

Lemma dist_gt_spec (n r : Z) : dist_gt n r = false <-> 0 <= r /\ n <= r * r.
Proof. unfold dist_gt. rewrite negb_false_iff. apply dist_le_spec. Qed.

(** A point within distance [r] lies in the box of side [2 r] around. *)
Lemma dist_le_box (p q : Point) (r : Z) :
  dist_le (get_points_dist p q) r = true ->
  p.1 - r <= q.1 <= p.1 + r /\ p.2 - r <= q.2 <= p.2 + r.
Proof.
  rewrite dist_le_spec. unfold get_points_dist. intros [Hr Hd].
  pose proof (Z.square_nonneg (p.1 - q.1)) as S1.
  pose proof (Z.square_nonneg (p.2 - q.2)) as S2.
  assert (H1 : (p.1 - q.1) * (p.1 - q.1) <= r * r) by lia.
  assert (H2 : (p.2 - q.2) * (p.2 - q.2) <= r * r) by lia.
  split; nia.
Qed.

Lemma square_between (a lo hi v : Z) :
  lo <= v <= hi ->
  (v - a) * (v - a) <= (lo - a) * (lo - a) \/
  (v - a) * (v - a) <= (hi - a) * (hi - a).
Proof.
  intros Hv. destruct (Z_le_dec a v); [right | left]; nia.
Qed.

(** A disc that holds the four corners of the bounds holds every point
    inside the bounds. *)
Lemma corners_cover g pt (q : Point) (s : Z) :
  in_grid g q = true ->
  dist_gt (get_points_dist ((x_range g).1, (y_range g).1) pt) s = false ->
  dist_gt (get_points_dist ((x_range g).2, (y_range g).1) pt) s = false ->
  dist_gt (get_points_dist ((x_range g).1, (y_range g).2) pt) s = false ->
  dist_gt (get_points_dist ((x_range g).2, (y_range g).2) pt) s = false ->
  dist_le (get_points_dist pt q) s = true.
Proof.
  rewrite in_grid_spec, !dist_gt_spec, dist_le_spec.
  unfold get_points_dist. simpl.
  intros [Hx Hy] [Hs C00] [_ C10] [_ C01] [_ C11]. split; [exact Hs|].
  destruct (square_between pt.1 _ _ _ Hx) as [X|X];
    destruct (square_between pt.2 _ _ _ Hy) as [Y|Y]; nia.
Qed.

(** *** Reachable grids *)

Lemma consistent_set_hash g h : consistent g -> consistent (set_hash g h).
Proof. intros Hc. exact Hc. Qed.

Lemma reachable_consistent g : reachable g -> consistent g.
Proof.
  induction 1 as [bounds resolution g Hinit | g x pt Hr IH | g x pt Hr IH].
  - unfold __init__ in Hinit.
    destruct (resolution =? 0) eqn:Hz; [discriminate|].
    injection Hinit as <-. apply Z.eqb_neq in Hz.
    unfold consistent. simpl. auto.
  - destruct (add_set_hash g x pt) as [h ->].
    apply consistent_set_hash, IH.
  - destruct (remove_set_hash g x pt) as [h ->].
    apply consistent_set_hash, IH.
Qed.

Lemma reachable_inv g : reachable g -> inv g.
Proof.
  induction 1 as [bounds resolution g Hinit | g x pt Hr IH | g x pt Hr IH].
  - unfold __init__ in Hinit.
    destruct (resolution =? 0) eqn:Hz; [discriminate|].
    injection Hinit as <-. intros k l Hl. simpl in Hl.
    rewrite lookup_empty in Hl. discriminate.
  - apply add_inv, IH.
  - apply remove_inv, IH.
Qed.

(** *** [proximity] *)

Lemma proximity_sound g (q : Point) (r : Z) x :
  In x (proximity g q r) ->
  exists pt, stored g pt x /\ dist_le (get_points_dist q pt) r = true.
Proof.
  intros Hx. unfold proximity in Hx.
  apply scan_cells_sound in Hx; [|reflexivity].
  destruct Hx as [k Hx]. apply in_map_iff in Hx.
  destruct Hx as [[pt y] [Hy Hin]]. simpl in Hy. subst y.
  apply filter_In in Hin. destruct Hin as [Hin Hd]. simpl in Hd.
  exists pt. split; [|exact Hd].
  apply stored_bucket. exists k. exact Hin.
Qed.

Lemma proximity_complete g (q : Point) (r : Z) pt x :
  consistent g -> inv g -> 0 < res g \/ in_grid g pt = true ->
  stored g pt x -> dist_le (get_points_dist q pt) r = true ->
  In x (proximity g q r).
Proof.
  intros Hc Hi Hcase Hs Hd. unfold proximity.
  destruct (dist_le_box q pt r Hd) as [B1 B2].
  apply (scan_box_complete g (q.1 - r, q.2 - r) (q.1 + r, q.2 + r) _ pt x);
    try assumption; try reflexivity.
  intros l Hl. apply in_map_iff. exists (pt, x). split; [reflexivity|].
  apply filter_In. split; [exact Hl | exact Hd].
Qed.

(** *** The loop of [nearest] *)

Lemma nearest_loop_exit g pt fuel :
  forall s0 s,
    nearest_loop fuel g pt s0 = Some s -> 0 < s0 ->
    0 < s /\ (proximity g pt s <> [] \/ corners_reached g pt s).
Proof.
  induction fuel as [|fuel IH]; intros s0 s Hl Hs0; [discriminate|].
  cbn [nearest_loop] in Hl. cbv zeta in Hl.
  destruct (proximity g pt s0) as [|y ys] eqn:Hp.
  - destruct (dist_gt (get_points_dist ((x_range g).1, (y_range g).1) pt) s0)
      eqn:C1; [apply (IH _ _ Hl); lia|].
    destruct (dist_gt (get_points_dist ((x_range g).2, (y_range g).1) pt) s0)
      eqn:C2; [apply (IH _ _ Hl); lia|].
    destruct (dist_gt (get_points_dist ((x_range g).1, (y_range g).2) pt) s0)
      eqn:C3; [apply (IH _ _ Hl); lia|].
    destruct (dist_gt (get_points_dist ((x_range g).2, (y_range g).2) pt) s0)
      eqn:C4; [apply (IH _ _ Hl); lia|].
    simpl in Hl. injection Hl as <-. split; [exact Hs0|]. right.
    unfold corners_reached. auto.
  - simpl in Hl. injection Hl as <-. split; [exact Hs0|]. left.
    rewrite Hp. discriminate.
Qed.

Lemma dist_gt_large (n s : Z) : 0 < s -> n <= s -> dist_gt n s = false.
Proof. intros Hs Hn. apply dist_gt_spec. split; nia. Qed.

(** The loop ends: [search_size] at least doubles, and once it is above
    the distance of the four corners the test fails. *)
Lemma nearest_loop_total g pt :
  forall (n : nat) s0,
    0 < s0 ->
    get_points_dist ((x_range g).1, (y_range g).1) pt
    + get_points_dist ((x_range g).2, (y_range g).1) pt
    + get_points_dist ((x_range g).1, (y_range g).2) pt
    + get_points_dist ((x_range g).2, (y_range g).2) pt
    - s0 <= Z.of_nat n ->
    exists s, forall fuel, (n < fuel)%nat ->
      nearest_loop fuel g pt s0 = Some s.
Proof.
  assert (Hnn : forall a b : Point, 0 <= get_points_dist a b).
  { intros a b. unfold get_points_dist.
    pose proof (Z.square_nonneg (a.1 - b.1)).
    pose proof (Z.square_nonneg (a.2 - b.2)). lia. }
  pose proof (Hnn ((x_range g).1, (y_range g).1) pt) as N1.
  pose proof (Hnn ((x_range g).2, (y_range g).1) pt) as N2.
  pose proof (Hnn ((x_range g).1, (y_range g).2) pt) as N3.
  pose proof (Hnn ((x_range g).2, (y_range g).2) pt) as N4.
  induction n as [|n IH]; intros s0 Hs0 Hbound.
  - exists s0. intros [|fuel] Hfuel; [lia|].
    cbn [nearest_loop]. cbv zeta.
    rewrite !dist_gt_large by lia.
    rewrite andb_false_r. reflexivity.
  - destruct (IH (2 * s0)) as [s' Hs']; [lia | lia|].
    destruct ((match proximity g pt s0 with [] => true | _ => false end)
         && (dist_gt (get_points_dist ((x_range g).1, (y_range g).1) pt) s0
             || dist_gt (get_points_dist ((x_range g).2, (y_range g).1) pt) s0
             || dist_gt (get_points_dist ((x_range g).1, (y_range g).2) pt) s0
             || dist_gt (get_points_dist ((x_range g).2, (y_range g).2) pt) s0))
      eqn:Hcond.
    + exists s'. intros [|fuel] Hfuel; [lia|].
      cbn [nearest_loop]. cbv zeta. rewrite Hcond. apply Hs'. lia.
    + exists s0. intros [|fuel] Hfuel; [lia|].
      cbn [nearest_loop]. cbv zeta. rewrite Hcond. reflexivity.
Qed.

(** *** [min] *)

Section Min.
Variable item_lt : item -> item -> bool.

Lemma min_from_least (cur : Z * item) (others : list (Z * item)) :
  In (min_from item_lt cur others) (cur :: others) /\
  forall y, In y (cur :: others) -> (min_from item_lt cur others).1 <= y.1.
Proof.
  revert cur. induction others as [|z others IH]; intros cur; simpl.
  - split; [auto|]. intros y [<-|[]]. lia.
  - destruct (IH (if tuple_lt item_lt z cur then z else cur)) as [Hin Hle].
    assert (Hc : (if tuple_lt item_lt z cur then z else cur).1 <= cur.1 /\
                 (if tuple_lt item_lt z cur then z else cur).1 <= z.1).
    { unfold tuple_lt. destruct (z.1 <? cur.1) eqn:H1; simpl; [lia|].
      destruct (z.1 =? cur.1) eqn:H2; simpl; [|lia].
      destruct (item_lt z.2 cur.2); lia. }
    pose proof (Hle _ (or_introl eq_refl)) as Hm.
    split.
    + destruct Hin as [Hin|Hin]; [|auto].
      destruct (tuple_lt item_lt z cur); rewrite <- Hin; auto.
    + intros y [<-|[<-|Hy]]; [lia | lia|]. apply Hle. right. exact Hy.
Qed.

Lemma nearest_unfold fuel g pt :
  nearest item_lt fuel g pt =
  match nearest_loop fuel g pt (res g) with
  | None => OutOfFuel
  | Some s =>
      match py_min item_lt (candidates g pt s) with
      | None => Returned None
      | Some m => Returned (Some m.2)
      end
  end.
Proof.
  unfold nearest, candidates, py_min.
  destruct (nearest_loop fuel g pt (res g)); [|reflexivity].
  destruct (scan_cells g _ _ _); reflexivity.
Qed.

End Min.

Lemma candidates_sound g pt (s : Z) (d : Z) x :
  In (d, x) (candidates g pt s) ->
  exists p, stored g p x /\ d = get_points_dist pt p.
Proof.
  intros Hc. unfold candidates in Hc.
  apply scan_cells_sound in Hc; [|reflexivity].
  destruct Hc as [k Hc]. apply in_map_iff in Hc.
  destruct Hc as [[p y] [Hy Hin]]. simpl in Hy. injection Hy as <- <-.
  exists p. split; [|reflexivity]. apply stored_bucket. exists k. exact Hin.
Qed.

Lemma candidates_complete g pt (s : Z) p x :
  consistent g -> inv g -> 0 < res g \/ in_grid g p = true ->
  stored g p x -> dist_le (get_points_dist pt p) s = true ->
  In (get_points_dist pt p, x) (candidates g pt s).
Proof.
  intros Hc Hi Hcase Hs Hd. unfold candidates.
  destruct (dist_le_box pt p s Hd) as [B1 B2].
  apply (scan_box_complete g (pt.1 - s, pt.2 - s) (pt.1 + s, pt.2 + s) _ p x);
    try assumption; try reflexivity.
  intros l Hl. apply in_map_iff. exists (p, x). split; [reflexivity | exact Hl].
Qed.

(** When the loop of [nearest] has ended, a grid that holds a pair holds
    one within [search_size] of the point. *)
Lemma exit_finds g pt (s : Z) p x :
  consistent g -> inv g ->
  proximity g pt s <> [] \/ corners_reached g pt s ->
  stored g p x ->
  exists p0 x0, stored g p0 x0 /\ dist_le (get_points_dist pt p0) s = true.
Proof.
  intros Hc Hi [Hne|[C1 [C2 [C3 C4]]]] Hs.
  - destruct (proximity g pt s) as [|y ys] eqn:Hp; [congruence|].
    destruct (proximity_sound g pt s y) as [p0 [Hp0 Hd]];
      [rewrite Hp; left; reflexivity|].
    exists p0, y. auto.
  - exists p, x. split; [exact Hs|].
    apply (corners_cover g pt p s); try assumption.
    apply stored_bucket in Hs. destruct Hs as [k Hk].
    apply (proj1 (inv_bucket g) Hi k p x Hk).
Qed.

(** C4, as the source has it.  On a grid with a positive resolution,
    [nearest(pt)] returns; it returns [None] exactly when the grid holds
    no pair, and otherwise an item stored at a point whose distance to
    [pt] is at most the distance of every stored point. *)
Theorem nearest_is_nearest (item_lt : item -> item -> bool) g pt :
  reachable g -> 0 < res g ->
  exists fuel0 r,
    (forall fuel, (fuel0 <= fuel)%nat ->
       nearest item_lt fuel g pt = Returned r) /\
    (r = None <-> forall p x, ~ stored g p x) /\
    (forall x, r = Some x ->
       exists p, stored g p x /\
         forall p' x', stored g p' x' ->
           get_points_dist pt p <= get_points_dist pt p').
Proof.
  intros Hreach Hres.
  pose proof (reachable_consistent g Hreach) as Hc.
  pose proof (reachable_inv g Hreach) as Hi.
  destruct (nearest_loop_total g pt
    (Z.to_nat
       (get_points_dist ((x_range g).1, (y_range g).1) pt
        + get_points_dist ((x_range g).2, (y_range g).1) pt
        + get_points_dist ((x_range g).1, (y_range g).2) pt
        + get_points_dist ((x_range g).2, (y_range g).2) pt))
    (res g) Hres) as [s Hloop]; [lia|].
  set (n := Z.to_nat _) in Hloop.
  destruct (nearest_loop_exit g pt (S n) (res g) s (Hloop (S n) (Nat.lt_succ_diag_r n)) Hres)
    as [Hs Hexit].
  assert (Hfar : forall p x p' x',
            stored g p x -> stored g p' x' ->
            dist_le (get_points_dist pt p) s = true ->
            dist_le (get_points_dist pt p') s = false ->
            get_points_dist pt p <= get_points_dist pt p').
  { intros p x p' x' _ _ Hin Hout. apply dist_le_spec in Hin.
    destruct (Z_le_dec (get_points_dist pt p') (s * s)) as [Hle|Hgt]; [|lia].
    assert (dist_le (get_points_dist pt p') s = true)
      by (apply dist_le_spec; lia).
    congruence. }
  destruct (py_min item_lt (candidates g pt s)) as [m|] eqn:Hmin.
  - exists (S n), (Some m.2).
    assert (Hcand : exists first others,
               candidates g pt s = first :: others /\
               m = min_from item_lt first others).
    { unfold py_min in Hmin. destruct (candidates g pt s) as [|f o];
        [discriminate|]. injection Hmin as <-. eauto. }
    destruct Hcand as [first [others [Hlist ->]]].
    destruct (min_from_least item_lt first others) as [Hin Hle].
    rewrite <- Hlist in Hin, Hle.
    set (m := min_from item_lt first others) in *.
    destruct (candidates_sound g pt s m.1 m.2) as [pm [Hpm Hdm]];
      [rewrite <- surjective_pairing; exact Hin|].
    split; [|split].
    + intros fuel Hfuel. rewrite nearest_unfold, (Hloop fuel) by lia.
      rewrite Hmin. reflexivity.
    + split; [discriminate|]. intros Hnone. exfalso.
      exact (Hnone pm m.2 Hpm).
    + intros x Hx. injection Hx as <-. exists pm. split; [exact Hpm|].
      intros p' x' Hs'. rewrite <- Hdm.
      destruct (dist_le (get_points_dist pt p') s) eqn:Hd.
      * apply (Hle (get_points_dist pt p', x')).
        apply candidates_complete; auto.
      * destruct (exit_finds g pt s p' x' Hc Hi Hexit Hs')
          as [p0 [x0 [Hs0 Hd0]]].
        assert (m.1 <= get_points_dist pt p0).
        { apply (Hle (get_points_dist pt p0, x0)).
          apply candidates_complete; auto. }
        pose proof (Hfar p0 x0 p' x' Hs0 Hs' Hd0 Hd). lia.
  - exists (S n), None.
    assert (Hnil : candidates g pt s = []).
    { unfold py_min in Hmin. destruct (candidates g pt s); [reflexivity|].
      discriminate. }
    split; [|split].
    + intros fuel Hfuel. rewrite nearest_unfold, (Hloop fuel) by lia.
      rewrite Hmin. reflexivity.
    + split; [|reflexivity]. intros _ p x Hst.
      destruct (exit_finds g pt s p x Hc Hi Hexit Hst) as [p0 [x0 [Hs0 Hd0]]].
      assert (Hin : In (get_points_dist pt p0, x0) (candidates g pt s))
        by (apply candidates_complete; auto).
      rewrite Hnil in Hin. destruct Hin.
    + intros x Hx. discriminate.
Qed.

(** C5, as the source has it.  The constructor raises exactly when the
    resolution is zero; with any other resolution, negative ones
    included, it returns a grid of that resolution, with no bucket. *)
Theorem zero_resolution_rejected (bounds : Rectangle) (resolution : Z) :
  (__init__ (item := item) bounds resolution = Raised InvalidResolution
   <-> resolution = 0) /\
  (resolution = 0 \/
   exists g, __init__ (item := item) bounds resolution = Returned g /\
             res g = resolution /\ hash g = ∅).
Proof.
  unfold __init__. destruct (resolution =? 0) eqn:Hz.
  - apply Z.eqb_eq in Hz. split; [tauto | left; exact Hz].
  - apply Z.eqb_neq in Hz. split; [split; [discriminate | tauto]|].
    right. eexists. split; [reflexivity|]. split; reflexivity.
Qed.

(** *** A negative resolution *)

Lemma scan_cells_nil {B : Type} g (ll ur : Z * Z)
    (f : list (Point * item) -> list B) :
  (forall l, f l = []) -> scan_cells g ll ur f = [].
Proof.
  intros Hf. destruct (scan_cells g ll ur f) as [|y ys] eqn:Hs;
    [reflexivity|].
  assert (Hy : In y (scan_cells g ll ur f)) by (rewrite Hs; left; reflexivity).
  apply scan_cells_sound in Hy; [|apply Hf].
  destruct Hy as [k Hk]. rewrite Hf in Hk. destruct Hk.
Qed.

Lemma proximity_negative g pt (r : Z) : r < 0 -> proximity g pt r = [].
Proof.
  intros Hr. unfold proximity. apply scan_cells_nil. intros l.
  induction l as [|it l IH]; simpl; [reflexivity|].
  unfold dist_le at 1.
  assert (Hz : (0 <=? r) = false) by lia. rewrite Hz. simpl. exact IH.
Qed.

(** With a negative [search_size] the loop of [nearest] never ends: no
    distance is below it, and doubling keeps it negative. *)
Lemma nearest_loop_negative g pt fuel :
  forall s, s < 0 -> nearest_loop fuel g pt s = None.
Proof.
  induction fuel as [|fuel IH]; intros s Hs; [reflexivity|].
  cbn [nearest_loop]. cbv zeta. rewrite (proximity_negative g pt s Hs).
  assert (Hc : forall n, dist_gt n s = true).
  { intros n. unfold dist_gt, dist_le.
    assert (Hz : (0 <=? s) = false) by lia. rewrite Hz. reflexivity. }
  rewrite !Hc. simpl. apply IH. lia.
Qed.

(** [nearest] on a grid built with a negative resolution does not
    return. *)
Remark nearest_negative_resolution (item_lt : item -> item -> bool) g pt :
  res g < 0 -> forall fuel, nearest item_lt fuel g pt = OutOfFuel.
Proof.
  intros Hres fuel. rewrite nearest_unfold.
  rewrite (nearest_loop_negative g pt fuel (res g) Hres). reflexivity.
Qed.

(** *** [add] then [remove] *)

Lemma remove_of_append {A : Type} `{EqDecision A} (a : A) (xs : list A) :
  exists ys,
    list_remove a (xs ++ [a]) = Some ys /\
    Permutation ys xs /\
    forall P : A -> bool, P a = false -> List.filter P ys = List.filter P xs.
Proof.
  induction xs as [|b xs IH]; simpl.
  - exists []. destruct (decide (a = a)); [|congruence].
    split; [reflexivity|]. split; [constructor | reflexivity].
  - destruct (decide (b = a)) as [->|Hne].
    + exists (xs ++ [a]). split; [reflexivity|]. split.
      * apply Permutation_sym, Permutation_cons_append.
      * intros P HP. rewrite List.filter_app. simpl. rewrite HP.
        apply app_nil_r.
    + destruct IH as [ys [Hr [Hp Hf]]]. rewrite Hr.
      exists (b :: ys). split; [reflexivity|]. split.
      * constructor. exact Hp.
      * intros P HP. simpl. rewrite (Hf P HP). reflexivity.
Qed.

Lemma filter_perm {A : Type} (P : A -> bool) (xs ys : list A) :
  Permutation xs ys -> Permutation (List.filter P xs) (List.filter P ys).
Proof.
  induction 1 as [|a xs ys Hp IH|a b xs|xs ys zs H1 IH1 H2 IH2]; simpl.
  - constructor.
  - destruct (P a); [constructor|]; exact IH.
  - destruct (P a), (P b); try apply Permutation_refl. apply perm_swap.
  - exact (Permutation_trans IH1 IH2).
Qed.

Lemma flat_map_perm {A B : Type} (f f' : A -> list B) (xs : list A) :
  (forall a, Permutation (f a) (f' a)) ->
  Permutation (flat_map f xs) (flat_map f' xs).
Proof.
  intros Hf. induction xs as [|a xs IH]; simpl; [constructor|].
  apply Permutation_app; [apply Hf | exact IH].
Qed.

Lemma filter_of_flat_map {A B : Type} (P : B -> bool) (f : A -> list B)
    (xs : list A) :
  List.filter P (flat_map f xs) = flat_map (fun a => List.filter P (f a)) xs.
Proof.
  induction xs as [|a xs IH]; simpl; [reflexivity|].
  rewrite List.filter_app, IH. reflexivity.
Qed.

Lemma round_trip_buckets g x pt :
  in_grid g pt = true ->
  exists g1 g2,
    add g x pt = (g1, Returned x) /\
    remove g1 x pt = (g2, Returned x) /\
    same_but_order x g g2.
Proof.
  intros Hin. set (k := __grid_loc g pt).
  destruct (remove_of_append (pt, x) (bucket g k)) as [l' [Hr [Hp Hf]]].
  eexists. rewrite (add_in_grid g x pt Hin). fold k.
  set (g1 := set_hash g _).
  destruct (remove_returns g1 x pt (bucket g k ++ [(pt, x)]) l')
    as [g2 [Hg2 [[h Hh] Hb]]].
  - exact Hin.
  - unfold g1. simpl. apply lookup_insert_eq.
  - exact Hr.
  - exists g2. split; [reflexivity|]. split; [exact Hg2|]. split.
    + exists h. rewrite Hh. reflexivity.
    + intros k'. rewrite Hb. change (__grid_loc g1 pt) with k.
      unfold g1. rewrite bucket_insert.
      destruct (decide (k = k')) as [<-|Hne].
      * split; [exact Hp|]. apply Hf. simpl.
        rewrite bool_decide_eq_true_2; reflexivity.
      * split; reflexivity.
Qed.

Lemma scan_cells_perm {B : Type} x g g' (ll ur : Z * Z)
    (f : list (Point * item) -> list B) :
  same_but_order x g g' -> f [] = [] ->
  (forall l l', Permutation l l' -> Permutation (f l) (f l')) ->
  Permutation (scan_cells g' ll ur f) (scan_cells g ll ur f).
Proof.
  intros [_ Hb] Hnil Hf. rewrite !scan_cells_bucket by exact Hnil.
  apply flat_map_perm. intros i. apply flat_map_perm. intros j.
  apply Hf, Hb.
Qed.

Lemma scan_cells_others {B : Type} x g g' (ll ur : Z * Z)
    (f : list (Point * item) -> list B) (Q : B -> bool) :
  f [] = [] ->
  (forall k, List.filter Q (f (bucket g' k)) = List.filter Q (f (bucket g k)))
  ->
  List.filter Q (scan_cells g' ll ur f) = List.filter Q (scan_cells g ll ur f).
Proof.
  intros Hnil Hf. rewrite !scan_cells_bucket by exact Hnil.
  rewrite !filter_of_flat_map. apply flat_map_ext. intros i.
  rewrite !filter_of_flat_map. apply flat_map_ext. intros j. apply Hf.
Qed.

(** The items a query picks from a bucket, other than [x], are picked
    from the pairs of the bucket other than those of [x]. *)
Lemma others_of_picked x (P : Point * item -> bool) l :
  others x (map snd (List.filter P l)) =
  map snd
    (List.filter P
       (List.filter (fun it : Point * item => negb (bool_decide (it.2 = x)))
          l)).
Proof.
  unfold others. induction l as [|it l IH]; simpl; [reflexivity|].
  destruct (P it) eqn:HP; simpl;
    destruct (negb (bool_decide (it.2 = x))) eqn:HQ; simpl;
    rewrite ?HP; simpl; rewrite IH; reflexivity.
Qed.

Lemma bounds_same_but_order x g g' (r : Rectangle) :
  same_but_order x g g' ->
  Permutation (bounds g' r) (bounds g r) /\
  others x (bounds g' r) = others x (bounds g r).
Proof.
  intros Hs. pose proof Hs as [[h ->] Hb]. unfold bounds.
  rewrite !grid_loc_set_hash. split.
  - apply (scan_cells_perm x); [exact Hs | reflexivity|].
    intros l l' Hl. apply Permutation_map, filter_perm, Hl.
  - unfold others at 1 2. apply (scan_cells_others x); [reflexivity|].
    intros k.
    pose proof (others_of_picked x) as E. unfold others in E.
    rewrite !E, (proj2 (Hb k)). reflexivity.
Qed.

Lemma proximity_same_but_order x g g' (q : Point) (r : Z) :
  same_but_order x g g' ->
  Permutation (proximity g' q r) (proximity g q r) /\
  others x (proximity g' q r) = others x (proximity g q r).
Proof.
  intros Hs. pose proof Hs as [[h ->] Hb]. unfold proximity.
  rewrite !grid_loc_set_hash. split.
  - apply (scan_cells_perm x); [exact Hs | reflexivity|].
    intros l l' Hl. apply Permutation_map, filter_perm, Hl.
  - unfold others at 1 2. apply (scan_cells_others x); [reflexivity|].
    intros k.
    pose proof (others_of_picked x) as E. unfold others in E.
    rewrite !E, (proj2 (Hb k)). reflexivity.
Qed.

Lemma candidates_same_but_order x g g' (q : Point) (s : Z) :
  same_but_order x g g' ->
  Permutation (candidates g' q s) (candidates g q s).
Proof.
  intros Hs. pose proof Hs as [[h ->] Hb]. unfold candidates.
  rewrite !grid_loc_set_hash.
  apply (scan_cells_perm x); [exact Hs | reflexivity|].
  intros l l' Hl. apply Permutation_map, Hl.
Qed.

Lemma nearest_loop_same_but_order x g g' (q : Point) fuel :
  same_but_order x g g' ->
  forall s, nearest_loop fuel g' q s = nearest_loop fuel g q s.
Proof.
  intros Hs. induction fuel as [|fuel IH]; intros s; [reflexivity|].
  cbn [nearest_loop]. cbv zeta. rewrite IH.
  destruct (proximity_same_but_order x g g' q s Hs) as [Hp _].
  pose proof Hs as [[h ->] _]. simpl.
  destruct (proximity (set_hash g h) q s) as [|y ys];
    destruct (proximity g q s) as [|z zs]; try reflexivity.
  - apply Permutation_nil in Hp. discriminate.
  - apply Permutation_sym, Permutation_nil in Hp. discriminate.
Qed.

(** *** [min] does not depend on the order of the list *)

Lemma tuple_lt_spec (item_lt : item -> item -> bool) (a b : Z * item) :
  tuple_lt item_lt a b = true <->
  a.1 < b.1 \/ (a.1 = b.1 /\ item_lt a.2 b.2 = true).
Proof.
  unfold tuple_lt. rewrite orb_true_iff, andb_true_iff, Z.ltb_lt, Z.eqb_eq.
  tauto.
Qed.

Lemma tuple_lt_irrefl (item_lt : item -> item -> bool) (a : Z * item) :
  strict_total_order item_lt -> tuple_lt item_lt a a = false.
Proof.
  intros [Hirr _]. destruct (tuple_lt item_lt a a) eqn:Hl; [|reflexivity].
  apply tuple_lt_spec in Hl. destruct Hl as [Hl|[_ Hl]]; [lia|].
  rewrite Hirr in Hl. discriminate.
Qed.

Lemma tuple_lt_trans (item_lt : item -> item -> bool) (a b c : Z * item) :
  strict_total_order item_lt ->
  tuple_lt item_lt a b = true -> tuple_lt item_lt b c = true ->
  tuple_lt item_lt a c = true.
Proof.
  intros [_ [Htr _]]. rewrite !tuple_lt_spec.
  intros [H1|[H1 L1]] [H2|[H2 L2]]; try (left; lia).
  right. split; [lia|]. exact (Htr _ _ _ L1 L2).
Qed.

Lemma tuple_lt_total (item_lt : item -> item -> bool) (a b : Z * item) :
  strict_total_order item_lt ->
  a = b \/ tuple_lt item_lt a b = true \/ tuple_lt item_lt b a = true.
Proof.
  intros [_ [_ Htot]]. rewrite !tuple_lt_spec.
  destruct a as [d1 x1], b as [d2 x2]. simpl.
  destruct (Z.lt_total d1 d2) as [Hd|[Hd|Hd]]; [right; left; left; exact Hd | |
    right; right; left; exact Hd].
  destruct (Htot x1 x2) as [Hx|[Hx|Hx]].
  - left. congruence.
  - right. left. right. auto.
  - right. right. right. auto.
Qed.

Lemma min_from_minimal (item_lt : item -> item -> bool) :
  strict_total_order item_lt ->
  forall (rest : list (Z * item)) (cur : Z * item),
    In (min_from item_lt cur rest) (cur :: rest) /\
    forall y, In y (cur :: rest) ->
              tuple_lt item_lt y (min_from item_lt cur rest) = false.
Proof.
  intros Hsto. induction rest as [|z rest IH]; intros cur; simpl.
  - split; [auto|]. intros y [<-|[]]. apply tuple_lt_irrefl, Hsto.
  - destruct (IH (if tuple_lt item_lt z cur then z else cur)) as [Hin Hmin].
    set (m := min_from item_lt _ rest) in *.
    pose proof (Hmin _ (or_introl eq_refl)) as Hc.
    assert (Hno : forall y, tuple_lt item_lt y m = true -> y <> cur /\ y <> z).
    { intros y Hy.
      destruct (tuple_lt item_lt z cur) eqn:Hzc.
      - split; [|intros ->; congruence]. intros ->.
        assert (tuple_lt item_lt z m = true)
          by (apply (tuple_lt_trans item_lt z cur m); assumption).
        congruence.
      - split; [intros ->; congruence|]. intros ->.
        destruct (tuple_lt_total item_lt cur z Hsto) as [E|[L|L]].
        + subst. congruence.
        + assert (tuple_lt item_lt cur m = true)
            by (apply (tuple_lt_trans item_lt cur z m); assumption).
          congruence.
        + congruence. }
    split.
    + destruct Hin as [Hin|Hin]; [|auto].
      destruct (tuple_lt item_lt z cur); rewrite <- Hin; auto.
    + intros y Hy. destruct (tuple_lt item_lt y m) eqn:Hl; [|reflexivity].
      destruct (Hno y Hl) as [N1 N2].
      destruct Hy as [<-|[<-|Hy]]; [congruence | congruence|].
      rewrite Hmin in Hl; [discriminate | right; exact Hy].
Qed.

Lemma py_min_perm (item_lt : item -> item -> bool)
    (xs ys : list (Z * item)) :
  strict_total_order item_lt -> Permutation xs ys ->
  py_min item_lt xs = py_min item_lt ys.
Proof.
  intros Hsto Hp. destruct xs as [|a xs], ys as [|b ys]; simpl.
  - reflexivity.
  - apply Permutation_nil in Hp. discriminate.
  - apply Permutation_sym, Permutation_nil in Hp. discriminate.
  - destruct (min_from_minimal item_lt Hsto xs a) as [I1 M1].
    destruct (min_from_minimal item_lt Hsto ys b) as [I2 M2].
    set (m1 := min_from item_lt a xs) in *.
    set (m2 := min_from item_lt b ys) in *.
    assert (L1 : tuple_lt item_lt m1 m2 = false)
      by (apply M2, (Permutation_in _ Hp), I1).
    assert (L2 : tuple_lt item_lt m2 m1 = false)
      by (apply M1, (Permutation_in _ (Permutation_sym Hp)), I2).
    destruct (tuple_lt_total item_lt m1 m2 Hsto) as [E|[L|L]];
      congruence.
Qed.

Lemma nearest_same_but_order (item_lt : item -> item -> bool) x g g'
    (q : Point) fuel :
  strict_total_order item_lt -> same_but_order x g g' ->
  nearest item_lt fuel g' q = nearest item_lt fuel g q.
Proof.
  intros Hsto Hs. rewrite !nearest_unfold.
  rewrite (nearest_loop_same_but_order x g g' q fuel Hs).
  assert (Hres : res g' = res g) by (destruct Hs as [[h ->] _]; reflexivity).
  rewrite Hres. destruct (nearest_loop fuel g q (res g)) as [s|];
    [|reflexivity].
  rewrite (py_min_perm item_lt _ _ Hsto
             (candidates_same_but_order x g g' q s Hs)).
  reflexivity.
Qed.

Lemma remove_of_append_fresh {A : Type} `{EqDecision A} (a : A)
    (xs : list A) :
  ~ In a xs -> list_remove a (xs ++ [a]) = Some xs.
Proof.
  induction xs as [|b xs IH]; simpl; intros Hn.
  - destruct (decide (a = a)); [reflexivity | congruence].
  - destruct (decide (b = a)) as [->|Hne]; [tauto|].
    rewrite IH by tauto. reflexivity.
Qed.

(** When the pair is not in its bucket yet, [add] then [remove] gives
    back every bucket as it was. *)
Lemma round_trip_fresh g x pt g1 g2 :
  in_grid g pt = true ->
  ~ In (pt, x) (bucket g (__grid_loc g pt)) ->
  add g x pt = (g1, Returned x) ->
  remove g1 x pt = (g2, Returned x) ->
  (exists h, g2 = set_hash g h) /\ forall k, bucket g2 k = bucket g k.
Proof.
  intros Hin Hfresh Ha Hr. set (k := __grid_loc g pt) in *.
  rewrite (add_in_grid g x pt Hin) in Ha. fold k in Ha.
  injection Ha as <-.
  set (g1 := set_hash g _) in *.
  destruct (remove_returns g1 x pt (bucket g k ++ [(pt, x)]) (bucket g k))
    as [g2' [Hg2 [[h Hh] Hb]]].
  - exact Hin.
  - unfold g1. simpl. apply lookup_insert_eq.
  - apply remove_of_append_fresh, Hfresh.
  - rewrite Hg2 in Hr. injection Hr as <-. split.
    + exists h. rewrite Hh. reflexivity.
    + intros k'. rewrite Hb. change (__grid_loc g1 pt) with k.
      unfold g1. rewrite bucket_insert.
      destruct (decide (k = k')) as [<-|Hne]; reflexivity.
Qed.

Lemma scan_cells_same {B : Type} g g' (ll ur : Z * Z)
    (f : list (Point * item) -> list B) :
  f [] = [] -> (forall k, bucket g' k = bucket g k) ->
  scan_cells g' ll ur f = scan_cells g ll ur f.
Proof.
  intros Hnil Hb. rewrite !scan_cells_bucket by exact Hnil.
  apply flat_map_ext. intros i. apply flat_map_ext. intros j.
  rewrite Hb. reflexivity.
Qed.

Lemma nearest_loop_same x g g' (q : Point) fuel :
  (exists h, g' = set_hash g h) ->
  (forall k, bucket g' k = bucket g k) ->
  forall s, nearest_loop fuel g' q s = nearest_loop fuel g q s.
Proof.
  intros [h ->] Hb. induction fuel as [|fuel IH]; intros s; [reflexivity|].
  cbn [nearest_loop]. cbv zeta. rewrite IH.
  assert (Hp : proximity (set_hash g h) q s = proximity g q s).
  { unfold proximity. rewrite !grid_loc_set_hash.
    apply scan_cells_same; [reflexivity | exact Hb]. }
  rewrite Hp. reflexivity.
Qed.

Lemma nearest_same (item_lt : item -> item -> bool) x g g' (q : Point) fuel :
  (exists h, g' = set_hash g h) ->
  (forall k, bucket g' k = bucket g k) ->
  nearest item_lt fuel g' q = nearest item_lt fuel g q.
Proof.
  intros Hh Hb. rewrite !nearest_unfold.
  rewrite (nearest_loop_same x g g' q fuel Hh Hb).
  destruct Hh as [h ->]. simpl.
  destruct (nearest_loop fuel g q (res g)) as [s|]; [|reflexivity].
  assert (Hc : candidates (set_hash g h) q s = candidates g q s).
  { unfold candidates. rewrite !grid_loc_set_hash.
    apply scan_cells_same; [reflexivity | exact Hb]. }
  rewrite Hc. reflexivity.
Qed.

(** C6, as the source has it.  For a point inside the bounds,
    [add(x, pt)] followed by [remove(x, pt)] both return.  Afterwards
    [bounds] and [proximity] return the same items as often as before,
    the items other than [x] in the same order.  When [(pt, x)] was not
    in its bucket before, [bounds], [proximity] and [nearest] answer
    exactly what they answered before.  When it was, [nearest] answers
    what it answered before provided [<] is a strict total order on the
    items. *)
Theorem add_remove_round_trip g x pt :
  in_grid g pt = true ->
  exists g1 g2,
    add g x pt = (g1, Returned x) /\
    remove g1 x pt = (g2, Returned x) /\
    (forall r, Permutation (bounds g2 r) (bounds g r) /\
               others x (bounds g2 r) = others x (bounds g r)) /\
    (forall q r, Permutation (proximity g2 q r) (proximity g q r) /\
                 others x (proximity g2 q r) = others x (proximity g q r)) /\
    (~ In (pt, x) (bucket g (__grid_loc g pt)) ->
     (forall r, bounds g2 r = bounds g r) /\
     (forall q r, proximity g2 q r = proximity g q r) /\
     (forall item_lt fuel q,
        nearest item_lt fuel g2 q = nearest item_lt fuel g q)) /\
    (forall item_lt, strict_total_order item_lt ->
       forall fuel q, nearest item_lt fuel g2 q = nearest item_lt fuel g q).
Proof.
  intros Hin.
  destruct (round_trip_buckets g x pt Hin) as [g1 [g2 [Ha [Hr Hs]]]].
  exists g1, g2. split; [exact Ha|]. split; [exact Hr|].
  split; [|split; [|split]].
  - intros r. apply bounds_same_but_order, Hs.
  - intros q r. apply proximity_same_but_order, Hs.
  - intros Hfresh.
    destruct (round_trip_fresh g x pt g1 g2 Hin Hfresh Ha Hr) as [Hh Hb].
    split; [|split].
    + intros r. destruct Hh as [h ->]. unfold bounds.
      rewrite !grid_loc_set_hash.
      apply scan_cells_same; [reflexivity | exact Hb].
    + intros q r. destruct Hh as [h ->]. unfold proximity.
      rewrite !grid_loc_set_hash.
      apply scan_cells_same; [reflexivity | exact Hb].
    + intros item_lt fuel q. apply (nearest_same item_lt x); assumption.
  - intros item_lt Hsto fuel q.
    apply (nearest_same_but_order item_lt x); assumption.
Qed.

Lemma count_occ_snoc {A : Type} (dec : forall a b : A, {a = b} + {a <> b})
    (xs : list A) (a : A) :
  count_occ dec (xs ++ [a]) a = S (count_occ dec xs a).
Proof.
  rewrite count_occ_app, (count_occ_cons_eq dec [] (eq_refl a)).
  rewrite count_occ_nil. lia.
Qed.

(** C10.  Two calls of [add(x, pt)] put two more copies of the pair in
    the bucket of [pt], one call of [remove(x, pt)] takes one of them
    out, and [x] is still returned by [bounds] for every rectangle that
    holds [pt] and by [proximity] for every disc that holds [pt]. *)
Theorem duplicates_are_kept g x pt :
  reachable g -> in_grid g pt = true ->
  exists g1 g2 g3,
    add g x pt = (g1, Returned x) /\
    add g1 x pt = (g2, Returned x) /\
    remove g2 x pt = (g3, Returned x) /\
    copies g2 pt x = S (S (copies g pt x)) /\
    copies g3 pt x = S (copies g pt x) /\
    (forall r, left r <= pt.1 <= right r -> lower r <= pt.2 <= upper r ->
               In x (bounds g3 r)) /\
    (forall q r, dist_le (get_points_dist q pt) r = true ->
                 In x (proximity g3 q r)).
Proof.
  intros Hreach Hin. pose proof (reachable_consistent g Hreach) as Hc.
  set (k := __grid_loc g pt).
  eexists. rewrite (add_in_grid g x pt Hin). fold k.
  set (g1 := set_hash g _).
  assert (Hb1 : bucket g1 k = bucket g k ++ [(pt, x)]).
  { unfold g1. rewrite bucket_insert.
    destruct (decide (k = k)); [reflexivity | congruence]. }
  eexists. rewrite (add_in_grid g1 x pt Hin).
  change (__grid_loc g1 pt) with k. rewrite Hb1.
  set (g2 := set_hash g1 _).
  assert (Hb2 : bucket g2 k = (bucket g k ++ [(pt, x)]) ++ [(pt, x)]).
  { unfold g2. rewrite bucket_insert.
    destruct (decide (k = k)); [reflexivity | congruence]. }
  destruct (remove_of_append (pt, x) (bucket g k ++ [(pt, x)]))
    as [l' [Hr [Hp _]]].
  destruct (remove_returns g2 x pt _ l' Hin
              (lookup_insert_eq _ _ _) Hr) as [g3 [Hg3 [[h Hh] Hb]]].
  assert (Hb3 : bucket g3 k = l').
  { rewrite Hb. change (__grid_loc g2 pt) with k.
    destruct (decide (k = k)); [reflexivity | congruence]. }
  assert (Hin3 : In (pt, x) (bucket g3 k)).
  { rewrite Hb3. apply (Permutation_in _ (Permutation_sym Hp)).
    apply in_app_iff. right. left. reflexivity. }
  assert (Hg : g3 = set_hash g h) by (rewrite Hh; reflexivity).
  assert (Hscan : forall (a b : Point) (f : list (Point * item) -> list item),
            a.1 <= pt.1 <= b.1 -> a.2 <= pt.2 <= b.2 -> f [] = [] ->
            (forall l, In (pt, x) l -> In x (f l)) ->
            In x (scan_cells g3 (__grid_loc g3 a) (__grid_loc g3 b) f)).
  { intros a b f H1 H2 Hnil Hf. apply (scan_cells_In g3 _ _ f x Hnil).
    exists (__grid_loc g3 pt).1, (__grid_loc g3 pt).2.
    assert (Hc3 : consistent g3) by (rewrite Hg; exact Hc).
    assert (Hi3 : in_grid g3 pt = true) by (rewrite Hg; exact Hin).
    destruct (cell_in_range g3 a b pt Hc3 (or_intror Hi3) H1 H2) as [C1 C2].
    split; [exact C1|]. split; [exact C2|].
    apply Hf. rewrite <- surjective_pairing.
    replace (__grid_loc g3 pt) with k by (rewrite Hg; reflexivity).
    exact Hin3. }
  exists g3. split; [reflexivity|]. split; [reflexivity|].
  split; [exact Hg3|]. split; [|split; [|split]].
  - change (copies g2 pt x = S (S (copies g pt x))).
    unfold copies. change (__grid_loc g2 pt) with k. rewrite Hb2.
    rewrite !count_occ_snoc. reflexivity.
  - unfold copies.
    replace (__grid_loc g3 pt) with k by (rewrite Hg; reflexivity).
    rewrite Hb3.
    rewrite (proj1 (Permutation_count_occ prod_eq_dec _ _) Hp).
    rewrite count_occ_snoc. reflexivity.
  - intros r Hx Hy. unfold bounds.
    apply (Hscan (left r, lower r) (right r, upper r)); try assumption;
      [reflexivity|].
    intros l Hl. apply in_map_iff. exists (pt, x). split; [reflexivity|].
    apply filter_In. split; [exact Hl|]. simpl.
    rewrite !andb_true_iff, !Z.leb_le. lia.
  - intros q r Hd. unfold proximity.
    destruct (dist_le_box q pt r Hd) as [B1 B2].
    apply (Hscan (q.1 - r, q.2 - r) (q.1 + r, q.2 + r)); try assumption;
      [reflexivity|].
    intros l Hl. apply in_map_iff. exists (pt, x). split; [reflexivity|].
    apply filter_In. split; [exact Hl | exact Hd].
Qed.

Lemma grid_loc_cell_of g pt : __grid_loc g pt = cell_of g pt.
Proof. reflexivity. Qed.

Lemma cell_invariant_inv g : cell_invariant g <-> inv g.
Proof.
  unfold cell_invariant, inv. split.
  - intros Hc [i j] l Hl pt x Hin.
    destruct (Hc i j l Hl pt x Hin) as [Hcell Hb].
    rewrite grid_loc_cell_of, in_grid_spec. auto.
  - intros Hi i j l Hl pt x Hin.
    destruct (Hi (i, j) l Hl pt x Hin) as [Hloc Hg].
    rewrite grid_loc_cell_of in Hloc. apply in_grid_spec in Hg. auto.
Qed.

(** With a positive resolution the cell of a point is the clamped floor
    of the quotient: the floor is the [n] with
    [n * res <= x - left < (n + 1) * res]. *)
Lemma cell_of_floor g pt :
  0 < res g ->
  exists n m,
    n * res g <= pt.1 - (x_range g).1 < (n + 1) * res g /\
    m * res g <= pt.2 - (y_range g).1 < (m + 1) * res g /\
    cell_of g pt = (Z.min (i_range g) (Z.max n 0),
                    Z.min (j_range g) (Z.max m 0)).
Proof.
  intros Hres.
  exists ((pt.1 - (x_range g).1) / res g), ((pt.2 - (y_range g).1) / res g).
  pose proof (Z.mul_div_le (pt.1 - (x_range g).1) (res g) Hres).
  pose proof (Z.mul_succ_div_gt (pt.1 - (x_range g).1) (res g) Hres).
  pose proof (Z.mul_div_le (pt.2 - (y_range g).1) (res g) Hres).
  pose proof (Z.mul_succ_div_gt (pt.2 - (y_range g).1) (res g) Hres).
  split; [lia|]. split; [lia|]. reflexivity.
Qed.

(** C7.  [add] and [remove] keep the invariant of the buckets: every pair
    held under the key [(i, j)] has a point whose cell, the clamped floor
    division by the resolution of its offset from the lower-left corner,
    is [(i, j)], and which lies inside the bounds.  With a point outside
    the bounds both raise and leave the grid as it was. *)
Theorem add_remove_keep_invariant g x pt :
  cell_invariant g ->
  cell_invariant (add g x pt).1 /\
  cell_invariant (remove g x pt).1 /\
  (forall y p, ~ inside_bounds g p ->
     add g y p = (g, Raised OutOfBounds) /\
     remove g y p = (g, Raised OutOfBounds)) /\
  (0 < res g ->
   forall p, exists n m,
     n * res g <= p.1 - (x_range g).1 < (n + 1) * res g /\
     m * res g <= p.2 - (y_range g).1 < (m + 1) * res g /\
     cell_of g p = (Z.min (i_range g) (Z.max n 0),
                    Z.min (j_range g) (Z.max m 0))).
Proof.
  intros Hc. apply cell_invariant_inv in Hc.
  split; [apply cell_invariant_inv, add_inv, Hc|].
  split; [apply cell_invariant_inv, remove_inv, Hc|].
  split.
  - intros y p Hout.
    assert (Hg : in_grid g p = false).
    { destruct (in_grid g p) eqn:Hin; [|reflexivity].
      apply in_grid_spec in Hin. contradiction. }
    split; [apply add_out_of_grid | apply remove_out_of_grid]; exact Hg.
  - intros Hres p. apply cell_of_floor, Hres.
Qed.

End Facts.

Import Examples.

Example doctest_init :
  __init__ (MkRectangle 0 0 10 10) 1 = Returned unit_grid.
Proof. reflexivity. Qed.

Example doctest_bounds :
  bounds doc_grid (MkRectangle 0 0 3 3) = ["A"%string] /\
  bounds doc_grid (MkRectangle 2 2 5 5) = ["B"%string] /\
  bounds doc_grid (MkRectangle 0 0 5 5) = ["A"%string; "B"%string].
Proof. vm_compute. repeat split. Qed.

Example doctest_proximity :
  proximity doc_grid (2, 1) 2 = ["A"%string] /\
  proximity doc_grid (6, 5) 3 = ["B"%string] /\
  proximity doc_grid (4, 1) 4 = ["A"%string; "B"%string].
Proof. vm_compute. repeat split. Qed.

Example doctest_nearest :
  nearest String.ltb 3 doc_grid (2, 1) = Returned (Some "A"%string) /\
  nearest String.ltb 3 doc_grid (7, 5) = Returned (Some "B"%string).
Proof. vm_compute. repeat split. Qed.

Lemma unit_grid_reachable : reachable unit_grid.
Proof. apply (reach_init (MkRectangle 0 0 10 10) 1). reflexivity. Qed.

Lemma doc_grid_reachable : reachable doc_grid.
Proof. unfold doc_grid. apply reach_add, reach_add, unit_grid_reachable. Qed.

Lemma nearest_is_nearest_witness :
  reachable doc_grid /\ 0 < res doc_grid /\
  exists fuel0 r,
    (forall fuel, (fuel0 <= fuel)%nat ->
       nearest String.ltb fuel doc_grid (2, 1) = Returned r) /\
    (r = None <-> forall p x, ~ stored doc_grid p x) /\
    (forall x, r = Some x ->
       exists p, stored doc_grid p x /\
         forall p' x', stored doc_grid p' x' ->
           get_points_dist (2, 1) p <= get_points_dist (2, 1) p').
Proof.
  split; [exact doc_grid_reachable|]. split; [reflexivity|].
  apply (nearest_is_nearest String.ltb doc_grid (2, 1));
    [exact doc_grid_reachable | reflexivity].
Defined.

(** C5, as the specification words it, fails: [Grid(Rectangle(0, 0, 10,
    10), -1)] raises nothing and returns a grid of resolution -1. *)
Lemma negative_resolution_accepted :
  __init__ (MkRectangle 0 0 10 10) (-1) = Returned negative_grid /\
  ~ (forall (bounds : Rectangle) (resolution : Z),
       resolution <= 0 ->
       __init__ (item := string) bounds resolution
       = Raised InvalidResolution).
Proof.
  split; [reflexivity|]. intros H.
  specialize (H (MkRectangle 0 0 10 10) (-1)).
  assert (Hr : __init__ (item := string) (MkRectangle 0 0 10 10) (-1)
               = Raised InvalidResolution) by (apply H; lia).
  vm_compute in Hr. discriminate Hr.
Qed.

(** On that grid [bounds] and [proximity] still answer, from the single
    cell every point falls in, and [nearest] never returns. *)
Remark negative_grid_queries :
  (add negative_grid "A"%string (1, 1)).2 = Returned "A"%string /\
  bounds (add negative_grid "A"%string (1, 1)).1 (MkRectangle 0 0 3 3)
  = ["A"%string] /\
  forall fuel, nearest String.ltb fuel negative_grid (1, 1) = OutOfFuel.
Proof.
  split; [reflexivity|]. split; [reflexivity|].
  intros fuel. apply nearest_negative_resolution. reflexivity.
Qed.

(** C4, as stated for every grid, fails: the grid of
    [Grid(Rectangle(0, 0, 10, 10), -1)] is one the constructor returns,
    and [nearest] on it never returns. *)
Lemma nearest_fails_on_negative_grid :
  reachable negative_grid /\
  (forall fuel, nearest String.ltb fuel negative_grid (1, 1) = OutOfFuel) /\
  ~ (forall (g : t string) (pt : Point),
       reachable g ->
       exists fuel r, nearest String.ltb fuel g pt = Returned r).
Proof.
  assert (Hreach : reachable negative_grid)
    by (apply (reach_init (MkRectangle 0 0 10 10) (-1)); reflexivity).
  assert (Hhang : forall fuel,
             nearest String.ltb fuel negative_grid (1, 1) = OutOfFuel)
    by (intros fuel; apply nearest_negative_resolution; reflexivity).
  split; [exact Hreach|]. split; [exact Hhang|].
  intros H. destruct (H negative_grid (1, 1) Hreach) as [fuel [r Hr]].
  rewrite Hhang in Hr. discriminate Hr.
Qed.

Lemma Z_ltb_strict_total_order : strict_total_order Z.ltb.
Proof.
  unfold strict_total_order. split; [|split].
  - intros a. apply Z.ltb_irrefl.
  - intros a b c H1 H2. apply Z.ltb_lt in H1, H2. apply Z.ltb_lt. lia.
  - intros a b. rewrite !Z.ltb_lt. lia.
Qed.

Lemma add_remove_round_trip_witness :
  in_grid pair_grid (1, 1) = true /\
  exists g1 g2,
    add pair_grid 1 (1, 1) = (g1, Returned 1) /\
    remove g1 1 (1, 1) = (g2, Returned 1) /\
    (forall r, Permutation (bounds g2 r) (bounds pair_grid r) /\
               others 1 (bounds g2 r) = others 1 (bounds pair_grid r)) /\
    (forall q r,
       Permutation (proximity g2 q r) (proximity pair_grid q r) /\
       others 1 (proximity g2 q r) = others 1 (proximity pair_grid q r)) /\
    (~ In ((1, 1), 1) (bucket pair_grid (__grid_loc pair_grid (1, 1))) ->
     (forall r, bounds g2 r = bounds pair_grid r) /\
     (forall q r, proximity g2 q r = proximity pair_grid q r) /\
     (forall item_lt fuel q,
        nearest item_lt fuel g2 q = nearest item_lt fuel pair_grid q)) /\
    (forall item_lt, strict_total_order item_lt ->
       forall fuel q,
         nearest item_lt fuel g2 q = nearest item_lt fuel pair_grid q).
Proof.
  split; [reflexivity|].
  apply (add_remove_round_trip pair_grid 1 (1, 1)). reflexivity.
Defined.

(** C6, as stated, fails.  The grid holds 1, 2 and 3 at [(1, 1)], in this
    order.  [add(1, (1, 1))] appends a second 1 and [remove(1, (1, 1))]
    takes out the first, so the bucket then holds 2, 3, 1: [bounds]
    answers [2, 3, 1] where it answered [1, 2, 3]; and under a [<] that
    orders the items in part only, [min] depends on the order of its
    candidates: [nearest((1, 1))] answers 2 where it answered 3, two
    items other than the one added and removed. *)
Lemma round_trip_not_identical :
  let g1 := (add triple_grid 1 (1, 1)).1 in
  let g2 := (remove g1 1 (1, 1)).1 in
  add triple_grid 1 (1, 1) = (g1, Returned 1) /\
  remove g1 1 (1, 1) = (g2, Returned 1) /\
  bounds triple_grid (MkRectangle 0 0 3 3) = [1; 2; 3] /\
  bounds g2 (MkRectangle 0 0 3 3) = [2; 3; 1] /\
  nearest subset_lt 2 triple_grid (1, 1) = Returned (Some 3) /\
  nearest subset_lt 2 g2 (1, 1) = Returned (Some 2).
Proof. vm_compute. repeat split. Qed.

(** When the pair is in its bucket already, the copy that [remove] takes
    out is the first one, so [x] moves behind the other items of the
    bucket: the lists of [bounds] differ in the place of [x] only. *)
Remark round_trip_moves_duplicate :
  let g := (add (add unit_grid "x"%string (1, 1)).1 "y"%string (1, 1)).1 in
  let g2 := (remove (add g "x"%string (1, 1)).1 "x"%string (1, 1)).1 in
  bounds g (MkRectangle 0 0 3 3) = ["x"%string; "y"%string] /\
  bounds g2 (MkRectangle 0 0 3 3) = ["y"%string; "x"%string].
Proof. vm_compute. split; reflexivity. Qed.

Lemma doc_grid_cell_invariant : cell_invariant doc_grid.
Proof. apply cell_invariant_inv, reachable_inv, doc_grid_reachable. Qed.

Lemma add_remove_keep_invariant_witness :
  cell_invariant doc_grid /\
  (cell_invariant (add doc_grid "A"%string (1, 1)).1 /\
   cell_invariant (remove doc_grid "A"%string (1, 1)).1 /\
   (forall y p, ~ inside_bounds doc_grid p ->
      add doc_grid y p = (doc_grid, Raised OutOfBounds) /\
      remove doc_grid y p = (doc_grid, Raised OutOfBounds)) /\
   (0 < res doc_grid ->
    forall p, exists n m,
      n * res doc_grid <= p.1 - (x_range doc_grid).1
        < (n + 1) * res doc_grid /\
      m * res doc_grid <= p.2 - (y_range doc_grid).1
        < (m + 1) * res doc_grid /\
      cell_of doc_grid p = (Z.min (i_range doc_grid) (Z.max n 0),
                            Z.min (j_range doc_grid) (Z.max m 0)))).
Proof.
  split; [exact doc_grid_cell_invariant|].
  apply (add_remove_keep_invariant doc_grid "A"%string (1, 1)).
  exact doc_grid_cell_invariant.
Defined.

(** At that grid: the pair of 'A' goes out of its cell [(1, 1)], which
    loses its key, the pair of 'B' stays under [(4, 4)]; a second 'A'
    joins the first; and a point outside the bounds changes nothing. *)
Example keep_invariant_at_doc_grid :
  hash doc_grid !! (1, 1) = Some [((1, 1), "A"%string)] /\
  hash (add doc_grid "A"%string (1, 1)).1 !! (1, 1)
  = Some [((1, 1), "A"%string); ((1, 1), "A"%string)] /\
  hash (remove doc_grid "A"%string (1, 1)).1 !! (1, 1) = None /\
  hash (remove doc_grid "A"%string (1, 1)).1 !! (4, 4)
  = Some [((4, 4), "B"%string)] /\
  hash (add doc_grid "C"%string (10, 9)).1 !! (10, 9)
  = Some [((10, 9), "C"%string)] /\
  add doc_grid "C"%string (11, 1) = (doc_grid, Raised OutOfBounds) /\
  remove doc_grid "A"%string (1, 11) = (doc_grid, Raised OutOfBounds).
Proof. vm_compute. repeat split. Qed.

Lemma duplicates_are_kept_witness :
  reachable unit_grid /\ in_grid unit_grid (1, 1) = true /\
  exists g1 g2 g3,
    add unit_grid "A"%string (1, 1) = (g1, Returned "A"%string) /\
    add g1 "A"%string (1, 1) = (g2, Returned "A"%string) /\
    remove g2 "A"%string (1, 1) = (g3, Returned "A"%string) /\
    copies g2 (1, 1) "A"%string = S (S (copies unit_grid (1, 1) "A"%string)) /\
    copies g3 (1, 1) "A"%string = S (copies unit_grid (1, 1) "A"%string) /\
    (forall r, left r <= 1 <= right r -> lower r <= 1 <= upper r ->
               In "A"%string (bounds g3 r)) /\
    (forall q r, dist_le (get_points_dist q (1, 1)) r = true ->
                 In "A"%string (proximity g3 q r)).
Proof.
  split; [exact unit_grid_reachable|]. split; [reflexivity|].
  apply (duplicates_are_kept unit_grid "A"%string (1, 1));
    [exact unit_grid_reachable | reflexivity].
Defined.

End GridSpec.

(** * More on the interval tree *)

Module IntervalTreeExtra.
Import IntervalTree IntervalTreeSpec.

(** Splits a build step that returned into its two recursive calls. *)
Ltac build_inv Hb ln rn Hln Hrn :=
  rewrite build_step in Hb; cbv zeta in Hb;
  destruct (_recursive_build _ _ (child_eps _ _).1) as [ln|] eqn:Hln;
    [|discriminate Hb];
  destruct (_recursive_build _ _ (child_eps _ _).2) as [rn|] eqn:Hrn;
    [|discriminate Hb];
  injection Hb as <-.

Section Facts.
Context {payload : Type}.
Implicit Types (i iv : interval payload) (l : list (interval payload)).
Implicit Types (intervals : list (interval payload)) (eps : list Z).

(** *** The scan of a sorted list is a filter *)

Lemma filter_none (keep : interval payload -> bool) l :
  (forall x, In x l -> keep x = false) -> List.filter keep l = [].
Proof.
  induction l as [|y l IH]; simpl; intros Hk; [reflexivity|].
  rewrite (Hk y) by auto. apply IH. intros x Hx. apply Hk. auto.
Qed.

Lemma firstn_scan_filter (R : interval payload -> interval payload -> Prop)
    (keep : interval payload -> bool) l :
  (forall a b, R a b -> keep b = true -> keep a = true) ->
  StronglySorted R l ->
  firstn (scan keep l) l = List.filter keep l.
Proof.
  intros Hdown Hs. induction Hs as [|y l Hs IH Hall]; simpl; [reflexivity|].
  destruct (keep y) eqn:Hy; simpl; [rewrite IH; reflexivity|].
  symmetry. apply filter_none. intros x Hx.
  destruct (keep x) eqn:Hkx; [|reflexivity].
  rewrite Forall_forall in Hall.
  rewrite (Hdown y x) in Hy; [discriminate | | exact Hkx].
  apply Hall, list_elem_of_In, Hx.
Qed.

Lemma sort_insert_perm cmp x l : Permutation (sort_insert cmp x l) (x :: l).
Proof.
  induction l as [|y l IH]; simpl; [apply Permutation_refl|].
  destruct (cmp y x <? 0); [|apply Permutation_refl].
  apply (Permutation_trans (perm_skip y IH)). apply perm_swap.
Qed.

Lemma sort_perm cmp l : Permutation (sort cmp l) l.
Proof.
  induction l as [|x l IH]; simpl; [constructor|].
  apply (Permutation_trans (sort_insert_perm cmp x (sort cmp l))).
  constructor. exact IH.
Qed.

(** What [Node.query] returns at a built node: the items of the centered
    intervals that hold [q], each once. *)
Lemma node_query_perm median intervals q :
  Permutation
    (query median
       (sort (fun a b => sign (lower a - lower b)) (hit_of median intervals))
       (sort (fun a b => sign (upper b - upper a)) (hit_of median intervals))
       q)
    (map item (List.filter (containsb q) (hit_of median intervals))).
Proof.
  unfold query. destruct (q <? median) eqn:Hq.
  - apply Z.ltb_lt in Hq.
    rewrite (firstn_scan_filter (fun a b => lower a <= lower b)).
    + apply Permutation_map.
      rewrite (filter_ext_in (containsb q) (fun rec => lower rec <=? q)).
      * apply GridSpec.filter_perm, sort_perm.
      * intros iv Hiv. apply hit_of_In in Hiv. unfold containsb.
        assert ((q <=? upper iv) = true) by lia.
        rewrite H. apply andb_true_r.
    + intros a b Hab Hb. lia.
    + apply left_list_sorted.
  - apply Z.ltb_ge in Hq.
    rewrite (firstn_scan_filter (fun a b => upper b <= upper a)).
    + apply Permutation_map.
      rewrite (filter_ext_in (containsb q) (fun rec => upper rec >=? q)).
      * apply GridSpec.filter_perm, sort_perm.
      * intros iv Hiv. apply hit_of_In in Hiv. unfold containsb.
        assert ((lower iv <=? q) = true) by lia.
        rewrite H. simpl. lia.
    + intros a b Hab Hb. lia.
    + apply right_list_sorted.
Qed.

Lemma filter_hit_rem (f : interval payload -> bool) median intervals :
  Permutation (List.filter f intervals)
    (List.filter f (hit_of median intervals)
     ++ List.filter f (rem_of median intervals)).
Proof.
  unfold hit_of, rem_of. induction intervals as [|iv l IH]; simpl;
    [constructor|].
  destruct (centered median iv); simpl; destruct (f iv); simpl;
    try exact IH.
  - constructor. exact IH.
  - apply (Permutation_trans (perm_skip iv IH)). apply Permutation_middle.
Qed.

Lemma containsb_spec q iv : containsb q iv = true <-> contains iv q.
Proof.
  unfold containsb, contains. rewrite andb_true_iff, !Z.leb_le. tauto.
Qed.

Lemma query_points_perm q fuel :
  forall intervals eps node,
    _recursive_build fuel intervals eps = Some node ->
    eps <> [] \/ List.filter (containsb q) intervals = [] ->
    Permutation (_query_points node q)
      (map item (List.filter (containsb q) intervals)).
Proof.
  induction fuel as [|fuel IH]; intros intervals eps node Hb Hcase;
    [discriminate|].
  destruct eps as [|e eps].
  - injection Hb as <-. destruct Hcase as [Hne|Hnil]; [congruence|].
    rewrite Hnil. constructor.
  - build_inv Hb ln rn Hln Hrn.
    set (median := median_of (e :: eps)) in *.
    cbn [_query_points].
    apply Permutation_sym.
    apply (Permutation_trans
             (Permutation_map item (filter_hit_rem (containsb q) median
                                      intervals))).
    rewrite map_app. apply Permutation_sym.
    apply Permutation_app; [apply node_query_perm|].
    assert (Hsub : forall iv, In iv (List.filter (containsb q)
                                       (rem_of median intervals)) ->
                     In iv intervals /\ contains iv q /\
                     ~ (lower iv <= median <= upper iv)).
    { intros iv Hiv. apply filter_In in Hiv. destruct Hiv as [Hr Hc].
      apply rem_of_In in Hr. apply containsb_spec in Hc. tauto. }
    destruct (q <? median) eqn:Hq.
    + apply Z.ltb_lt in Hq. apply (IH _ _ _ Hln).
      destruct (List.filter (containsb q) (rem_of median intervals))
        as [|iv rest] eqn:Hf; [right; reflexivity|].
      left. destruct (Hsub iv (or_introl eq_refl)) as [Hin [Hc Hn]].
      unfold contains in Hc.
      apply (rem_left_eps median intervals iv); [exact Hin | lia].
    + apply Z.ltb_ge in Hq. apply (IH _ _ _ Hrn).
      destruct (List.filter (containsb q) (rem_of median intervals))
        as [|iv rest] eqn:Hf; [right; reflexivity|].
      left. destruct (Hsub iv (or_introl eq_refl)) as [Hin [Hc Hn]].
      unfold contains in Hc.
      apply (rem_right_eps median intervals iv); [exact Hin | lia].
Qed.

(** What [__init__] built, when it returned. *)
Lemma init_inv fuel intervals node :
  __init__ fuel intervals = (Tree (Some node), Returned tt) ->
  _recursive_build fuel intervals (endpoints intervals) = Some node.
Proof.
  unfold __init__, _build.
  destruct (List.filter _ intervals); [|discriminate].
  destruct (_recursive_build fuel intervals (endpoints intervals));
    [|discriminate].
  intros Hi. injection Hi as <-. reflexivity.
Qed.

(** X1.  On the tree the constructor returns, the point query [query(q)]
    returns the item of every interval with [lower <= q <= upper] exactly
    once, and nothing else. *)
Theorem point_query_each_once fuel intervals node (q : Z) :
  __init__ fuel intervals = (Tree (Some node), Returned tt) ->
  Permutation (tree_query node (Point q))
    (map item (List.filter (containsb q) intervals)).
Proof.
  intros Hi. apply init_inv in Hi. cbn [tree_query].
  apply (query_points_perm q _ _ _ _ Hi).
  destruct (List.filter (containsb q) intervals) as [|iv rest] eqn:Hf;
    [right; reflexivity|].
  left. apply (endpoints_nonempty intervals iv).
  assert (Hin : In iv (List.filter (containsb q) intervals))
    by (rewrite Hf; left; reflexivity).
  apply filter_In in Hin. tauto.
Qed.

(** X2.  On the tree the constructor returns, the range query for the
    range [(q, q)] and the point query for [q] return the same items. *)
Theorem point_range_agrees fuel intervals node (q : Z) :
  __init__ fuel intervals = (Tree (Some node), Returned tt) ->
  forall x, In x (tree_query node (Range (q, q))) <->
            In x (tree_query node (Point q)).
Proof.
  intros Hi x. apply init_inv in Hi. cbn [tree_query]. split.
  - intros Hx.
    destruct (query_range_sound q q _ (Z.le_refl q) _ _ _ Hi x Hx)
      as [iv [Hin [<- Hov]]].
    apply (query_points_complete q _ _ _ _ Hi);
      [apply (endpoints_nonempty intervals iv Hin) | exact Hin|].
    unfold overlaps in Hov. unfold contains. lia.
  - intros Hx.
    destruct (query_points_sound q _ _ _ _ Hi x Hx) as [iv [Hin [<- Hc]]].
    apply (query_range_complete q q _ _ _ _ Hi);
      [apply (endpoints_nonempty intervals iv Hin) | exact Hin|].
    unfold contains in Hc. unfold overlaps. lia.
Qed.

(** *** The shape of the tree *)

Lemma build_well_formed fuel :
  forall intervals eps node,
    _recursive_build fuel intervals eps = Some node -> well_formed node.
Proof.
  induction fuel as [|fuel IH]; intros intervals eps node Hb; [discriminate|].
  destruct eps as [|e eps]; [injection Hb as <-; exact I|].
  build_inv Hb ln rn Hln Hrn. cbn [well_formed].
  split; [apply left_list_sorted|]. split; [apply right_list_sorted|].
  split; [|split; [|split; [exact (IH _ _ _ Hln) | exact (IH _ _ _ Hrn)]]].
  - apply (Permutation_trans (sort_perm _ _)).
    apply Permutation_sym, sort_perm.
  - rewrite Forall_forall. intros iv Hiv.
    apply list_elem_of_In, sort_In, hit_of_In in Hiv. tauto.
Qed.

(** X3.  Every node of the tree the constructor returns has a left list
    ascending by lower bound and a right list descending by upper bound,
    the two holding the same intervals, all of them around the value of
    the node. *)
Theorem built_tree_well_formed fuel intervals node :
  __init__ fuel intervals = (Tree (Some node), Returned tt) ->
  well_formed node.
Proof.
  intros Hi. apply init_inv in Hi. exact (build_well_formed _ _ _ _ Hi).
Qed.

Lemma held_sound fuel :
  forall intervals eps node iv,
    _recursive_build fuel intervals eps = Some node ->
    held node iv -> In iv intervals.
Proof.
  induction fuel as [|fuel IH]; intros intervals eps node iv Hb Hh;
    [discriminate|].
  destruct eps as [|e eps]; [injection Hb as <-; destruct Hh|].
  build_inv Hb ln rn Hln Hrn. cbn [held] in Hh.
  destruct Hh as [Hh|[Hh|Hh]].
  - apply sort_In, hit_of_In in Hh. tauto.
  - apply (IH _ _ _ _ Hln), rem_of_In in Hh. tauto.
  - apply (IH _ _ _ _ Hrn), rem_of_In in Hh. tauto.
Qed.

Lemma held_complete fuel :
  forall intervals eps node iv,
    _recursive_build fuel intervals eps = Some node ->
    eps <> [] -> In iv intervals -> held node iv.
Proof.
  induction fuel as [|fuel IH]; intros intervals eps node iv Hb Hne Hin;
    [discriminate|].
  destruct eps as [|e eps]; [congruence|].
  build_inv Hb ln rn Hln Hrn.
  set (median := median_of (e :: eps)) in *. cbn [held].
  destruct (Z_le_dec (lower iv) median) as [H1|H1];
    [destruct (Z_le_dec median (upper iv)) as [H2|H2]|].
  - left. apply sort_In, hit_of_In. auto.
  - right. left. apply (IH _ _ _ _ Hln).
    + apply (rem_left_eps median intervals iv); [exact Hin | lia].
    + apply rem_of_In. split; [exact Hin | lia].
  - right. right. apply (IH _ _ _ _ Hrn).
    + apply (rem_right_eps median intervals iv); [exact Hin | lia].
    + apply rem_of_In. split; [exact Hin | lia].
Qed.

(** X4.  The tree the constructor returns holds, in the lists of its
    nodes, the intervals of the batch and no others. *)
Theorem built_tree_holds_batch fuel intervals node :
  __init__ fuel intervals = (Tree (Some node), Returned tt) ->
  forall iv, held node iv <-> In iv intervals.
Proof.
  intros Hi iv. apply init_inv in Hi. split.
  - exact (held_sound _ _ _ _ _ Hi).
  - intros Hin. apply (held_complete _ _ _ _ _ Hi); [|exact Hin].
    exact (endpoints_nonempty intervals iv Hin).
Qed.

Lemma build_height fuel :
  forall intervals eps node,
    _recursive_build fuel intervals eps = Some node ->
    (height node < fuel)%nat.
Proof.
  induction fuel as [|fuel IH]; intros intervals eps node Hb; [discriminate|].
  destruct eps as [|e eps]; [injection Hb as <-; simpl; lia|].
  build_inv Hb ln rn Hln Hrn. cbn [height].
  pose proof (IH _ _ _ Hln). pose proof (IH _ _ _ Hrn). lia.
Qed.

(** X5.  The tree the constructor returns for [n] intervals is at most
    [2 n] nodes high: the recursion of the build never goes deeper. *)
Theorem built_tree_height fuel intervals node :
  __init__ fuel intervals = (Tree (Some node), Returned tt) ->
  (height node <= 2 * length intervals)%nat.
Proof.
  intros Hi.
  assert (Hv : valid intervals).
  { unfold __init__, _build in Hi. unfold valid. rewrite Forall_forall.
    intros iv Hiv. apply list_elem_of_In in Hiv.
    destruct (Z_le_dec (lower iv) (upper iv)) as [Hle|Hgt]; [exact Hle|].
    exfalso.
    destruct (List.filter (fun i => lower i >? upper i) intervals) eqn:Hf;
      [|discriminate].
    assert (Hbad : In iv (List.filter (fun i => lower i >? upper i)
                            intervals))
      by (apply filter_In; split; [exact Hiv | lia]).
    rewrite Hf in Hbad. destruct Hbad. }
  apply init_inv in Hi.
  destruct (init_returns intervals Hv) as [node' [Hb' _]].
  pose proof (build_height _ _ _ _ Hb') as Hh.
  assert (Heq : node' = node).
  { pose proof (build_mono _ _ _ _ Hi (fuel + (2 * length intervals + 1))%nat)
      as E1.
    pose proof (build_mono _ _ _ _ Hb'
                  (fuel + (2 * length intervals + 1))%nat) as E2.
    rewrite E1 in E2 by lia. injection E2; [auto | lia]. }
  subst node'. lia.
Qed.

(** X6.  On a strictly ascending list [binary_search] returns the number
    of elements below [q]: the elements before that index are those
    below [q], the elements from it on are the others. *)
Theorem binary_search_counts_below eps (q : Z) :
  StronglySorted Z.lt eps ->
  binary_search eps q = length (List.filter (fun x => x <? q) eps) /\
  firstn (binary_search eps q) eps = List.filter (fun x => x <? q) eps /\
  skipn (binary_search eps q) eps = List.filter (fun x => negb (x <? q)) eps.
Proof.
  intros Hs. destruct (binary_search_spec eps q Hs) as [Hlen [Hlo Hhi]].
  destruct (cut_filter (fun x => x <? q) eps (binary_search eps q))
    as [H1 H2].
  - exact Hlen.
  - intros a Ha. apply Z.ltb_lt, Hlo, Ha.
  - intros a Ha. apply Z.ltb_ge, Hhi, Ha.
  - split; [|split; assumption].
    rewrite <- H1, length_firstn. lia.
Qed.

End Facts.

Import Examples.

Lemma doc_tree_built :
  __init__ 7 doc_intervals = (Tree (Some doc_tree), Returned tt).
Proof. vm_compute. reflexivity. Qed.

Lemma point_query_each_once_witness :
  __init__ 7 doc_intervals = (Tree (Some doc_tree), Returned tt) /\
  Permutation (tree_query doc_tree (Point 5))
    (map item (List.filter (containsb 5) doc_intervals)).
Proof.
  split; [exact doc_tree_built|].
  apply (point_query_each_once 7 doc_intervals doc_tree 5).
  exact doc_tree_built.
Defined.

Lemma point_range_agrees_witness :
  __init__ 7 doc_intervals = (Tree (Some doc_tree), Returned tt) /\
  forall x, In x (tree_query doc_tree (Range (5, 5))) <->
            In x (tree_query doc_tree (Point 5)).
Proof.
  split; [exact doc_tree_built|].
  apply (point_range_agrees 7 doc_intervals doc_tree 5).
  exact doc_tree_built.
Defined.

Lemma built_tree_well_formed_witness :
  __init__ 7 doc_intervals = (Tree (Some doc_tree), Returned tt) /\
  well_formed doc_tree.
Proof.
  split; [exact doc_tree_built|].
  apply (built_tree_well_formed 7 doc_intervals doc_tree).
  exact doc_tree_built.
Defined.

Lemma built_tree_holds_batch_witness :
  __init__ 7 doc_intervals = (Tree (Some doc_tree), Returned tt) /\
  forall iv, held doc_tree iv <-> In iv doc_intervals.
Proof.
  split; [exact doc_tree_built|].
  apply (built_tree_holds_batch 7 doc_intervals doc_tree).
  exact doc_tree_built.
Defined.

Lemma built_tree_height_witness :
  __init__ 7 doc_intervals = (Tree (Some doc_tree), Returned tt) /\
  (height doc_tree <= 2 * length doc_intervals)%nat.
Proof.
  split; [exact doc_tree_built|].
  apply (built_tree_height 7 doc_intervals doc_tree).
  exact doc_tree_built.
Defined.

Lemma binary_search_counts_below_witness :
  StronglySorted Z.lt [1; 3; 5; 7] /\
  (binary_search [1; 3; 5; 7] 5
   = length (List.filter (fun x => x <? 5) [1; 3; 5; 7]) /\
   firstn (binary_search [1; 3; 5; 7] 5) [1; 3; 5; 7]
   = List.filter (fun x => x <? 5) [1; 3; 5; 7] /\
   skipn (binary_search [1; 3; 5; 7] 5) [1; 3; 5; 7]
   = List.filter (fun x => negb (x <? 5)) [1; 3; 5; 7]).
Proof.
  assert (Hs : StronglySorted Z.lt [1; 3; 5; 7])
    by (repeat constructor; lia).
  split; [exact Hs|].
  apply (binary_search_counts_below [1; 3; 5; 7] 5 Hs).
Defined.

End IntervalTreeExtra.

(** * More on the grid *)

Module GridExtra.
Import Grid GridSpec.

Section Facts.
Context {item : Type} `{EqDecision item}.
Implicit Types (g : t item) (x : item) (pt : Point).
Implicit Types (l : list (Point * item)) (k : Z * Z).

Lemma stored_in_its_cell g pt x :
  inv g -> stored g pt x ->
  In (pt, x) (bucket g (__grid_loc g pt)) /\ in_grid g pt = true.
Proof.
  intros Hi Hs. apply stored_bucket in Hs. destruct Hs as [k Hk].
  destruct (proj1 (inv_bucket g) Hi k pt x Hk) as [Hloc Hin].
  rewrite Hloc. auto.
Qed.

Lemma bounds_iff g (r : Rectangle) x :
  reachable g ->
  In x (bounds g r) <-> exists pt, stored g pt x /\ in_rect r pt.
Proof.
  intros Hreach.
  pose proof (reachable_consistent g Hreach) as Hc.
  pose proof (reachable_inv g Hreach) as Hi. split.
  - intros Hx. unfold bounds in Hx.
    apply scan_cells_sound in Hx; [|reflexivity].
    destruct Hx as [k Hx]. apply in_map_iff in Hx.
    destruct Hx as [[pt y] [Hy Hin]]. simpl in Hy. subst y.
    apply filter_In in Hin. destruct Hin as [Hin Hd]. simpl in Hd.
    exists pt. split; [apply stored_bucket; exists k; exact Hin|].
    rewrite !andb_true_iff, !Z.leb_le in Hd. unfold in_rect. tauto.
  - intros [pt [Hs [Hx Hy]]]. unfold bounds.
    destruct (stored_in_its_cell g pt x Hi Hs) as [_ Hin].
    apply (scan_box_complete g (left r, lower r) (right r, upper r) _ pt x);
      try assumption; try reflexivity; [right; exact Hin|].
    intros l Hl. apply in_map_iff. exists (pt, x). split; [reflexivity|].
    apply filter_In. split; [exact Hl|]. simpl.
    rewrite !andb_true_iff, !Z.leb_le. tauto.
Qed.

(** X8.  On a grid the program can hold, [bounds(r)] returns exactly the
    items stored at a point inside the rectangle [r], borders included. *)
Theorem bounds_exact g (r : Rectangle) x :
  reachable g ->
  In x (bounds g r) <-> exists pt, stored g pt x /\ in_rect r pt.
Proof. exact (bounds_iff g r x). Qed.

Lemma proximity_iff g (q : Point) (r : Z) x :
  reachable g ->
  In x (proximity g q r) <->
  exists pt, stored g pt x /\ dist_le (get_points_dist q pt) r = true.
Proof.
  intros Hreach.
  pose proof (reachable_consistent g Hreach) as Hc.
  pose proof (reachable_inv g Hreach) as Hi. split.
  - apply proximity_sound.
  - intros [pt [Hs Hd]].
    destruct (stored_in_its_cell g pt x Hi Hs) as [_ Hin].
    apply (proximity_complete g q r pt x); auto.
Qed.

(** X9.  On a grid the program can hold, [proximity(q, r)] returns
    exactly the items stored at a point within distance [r] of [q]. *)
Theorem proximity_exact g (q : Point) (r : Z) x :
  reachable g ->
  In x (proximity g q r) <->
  exists pt, stored g pt x /\ dist_le (get_points_dist q pt) r = true.
Proof. exact (proximity_iff g q r x). Qed.

(** X10.  On a grid the program can hold and for a point inside the
    bounds, [remove(x, pt)] returns when the pair is stored; when it is
    not, it raises [KeyError] if the cell of [pt] has no bucket and
    [ValueError] if it has one, and the grid stays as it was. *)
Theorem remove_outcome g x pt :
  reachable g -> in_grid g pt = true ->
  (stored g pt x -> exists g', remove g x pt = (g', Returned x)) /\
  (~ stored g pt x -> hash g !! __grid_loc g pt = None ->
   remove g x pt = (g, Raised KeyError)) /\
  (~ stored g pt x -> hash g !! __grid_loc g pt <> None ->
   remove g x pt = (g, Raised ValueError)).
Proof.
  intros Hreach Hin. pose proof (reachable_inv g Hreach) as Hi.
  split; [|split].
  - intros Hs. destruct (stored_in_its_cell g pt x Hi Hs) as [Hb _].
    unfold bucket in Hb.
    destruct (hash g !! __grid_loc g pt) as [l|] eqn:Hl; [|destruct Hb].
    destruct (list_remove_present (pt, x) l Hb) as [l' Hr].
    destruct (remove_returns g x pt l l' Hin Hl Hr) as [g' [Hg' _]].
    exists g'. exact Hg'.
  - intros _ Hnone. unfold remove. rewrite Hin, Hnone. reflexivity.
  - intros Hns Hsome. unfold remove. rewrite Hin. simpl.
    destruct (hash g !! __grid_loc g pt) as [l|] eqn:Hl; [|congruence].
    rewrite list_remove_absent; [reflexivity|].
    intros Hb. apply Hns. exists (__grid_loc g pt), l. auto.
Qed.

(** *** No bucket is left empty *)

Lemma add_no_empty g x pt :
  no_empty_bucket g -> no_empty_bucket (add g x pt).1.
Proof.
  intros Hn. unfold add. destruct (negb (in_grid g pt)); [exact Hn|].
  destruct (hash g !! __grid_loc g pt) as [l|]; simpl;
    intros k; simpl;
    (destruct (decide (__grid_loc g pt = k)) as [<-|Hne];
     [rewrite lookup_insert_eq; intros Hs; injection Hs as Hs;
      try (apply app_eq_nil in Hs; destruct Hs); discriminate
     | rewrite lookup_insert_ne by exact Hne; apply Hn]).
Qed.

Lemma remove_no_empty g x pt :
  no_empty_bucket g -> no_empty_bucket (remove g x pt).1.
Proof.
  intros Hn. unfold remove. destruct (negb (in_grid g pt)); [exact Hn|].
  destruct (hash g !! __grid_loc g pt) as [l|]; [|exact Hn].
  destruct (list_remove (pt, x) l) as [[|y l']|]; [| |exact Hn]; simpl;
    intros k; simpl;
    destruct (decide (__grid_loc g pt = k)) as [<-|Hne].
  - rewrite lookup_delete_eq. discriminate.
  - rewrite lookup_delete_ne by exact Hne. apply Hn.
  - rewrite lookup_insert_eq. discriminate.
  - rewrite lookup_insert_ne by exact Hne. apply Hn.
Qed.

Lemma reachable_bucket_nonempty g :
  reachable g -> forall k, hash g !! k = Some [] -> False.
Proof.
  induction 1 as [bounds resolution g Hinit | g x pt Hr IH | g x pt Hr IH].
  - unfold __init__ in Hinit.
    destruct (resolution =? 0); [discriminate|].
    injection Hinit as <-. intros k. simpl. rewrite lookup_empty.
    discriminate.
  - intros k. apply add_no_empty. exact IH.
  - intros k. apply remove_no_empty. exact IH.
Qed.

(** X11.  A grid the program can hold has no empty bucket: a key is in
    the dict only while its cell holds a pair. *)
Theorem reachable_no_empty_bucket g :
  reachable g -> no_empty_bucket g.
Proof.
  intros Hreach k Hk. exact (reachable_bucket_nonempty g Hreach k Hk).
Qed.

(** X12.  On a grid the program can hold, with a positive resolution,
    every key of the dict is a cell between [(0, 0)] and
    [(i_range, j_range)]. *)
Theorem keys_within_ranges g k l :
  reachable g -> 0 < res g -> hash g !! k = Some l ->
  0 <= k.1 <= i_range g /\ 0 <= k.2 <= j_range g.
Proof.
  intros Hreach Hres Hl.
  pose proof (reachable_consistent g Hreach) as [_ [Hi Hj]].
  pose proof (reachable_inv g Hreach) as Hinv.
  destruct l as [|[pt x] l].
  - exfalso. exact (reachable_bucket_nonempty g Hreach k Hl).
  - destruct (Hinv k _ Hl pt x (or_introl eq_refl)) as [Hloc Hin].
    apply in_grid_spec in Hin. rewrite <- Hloc. unfold __grid_loc. simpl.
    assert (0 <= i_range g) by (rewrite Hi; apply Z.div_pos; lia).
    assert (0 <= j_range g) by (rewrite Hj; apply Z.div_pos; lia).
    lia.
Qed.

(** *** What [add] and [remove] change *)

Lemma add_effect g x pt :
  in_grid g pt = true ->
  exists g',
    add g x pt = (g', Returned x) /\
    (forall p y, stored g' p y <-> stored g p y \/ (p = pt /\ y = x)) /\
    copies g' pt x = S (copies g pt x).
Proof.
  intros Hin. eexists. split; [apply (add_in_grid g x pt Hin)|].
  set (k := __grid_loc g pt).
  set (g' := set_hash g _).
  assert (Hb : forall k', bucket g' k' =
                 if decide (k = k') then bucket g k ++ [(pt, x)]
                 else bucket g k').
  { intros k'. unfold g'. apply bucket_insert. }
  split.
  - intros p y. rewrite !stored_bucket. split.
    + intros [k' Hk']. rewrite Hb in Hk'.
      destruct (decide (k = k')) as [<-|Hne]; [|left; exists k'; exact Hk'].
      apply in_app_iff in Hk'. destruct Hk' as [Hk'|[Hk'|[]]].
      * left. exists k. exact Hk'.
      * right. injection Hk' as <- <-. auto.
    + intros [[k' Hk']|[-> ->]].
      * exists k'. rewrite Hb. destruct (decide (k = k')) as [<-|Hne];
          [apply in_app_iff; left|]; exact Hk'.
      * exists k. rewrite Hb. destruct (decide (k = k)); [|congruence].
        apply in_app_iff. right. left. reflexivity.
  - unfold copies. change (__grid_loc g' pt) with k. rewrite Hb.
    destruct (decide (k = k)); [|congruence].
    fold k. apply count_occ_snoc.
Qed.



(** X15.  On a grid with a negative resolution [nearest] never returns,
    whatever the grid holds: the search radius starts negative and
    doubling keeps it so. *)
Theorem nearest_hangs_below_zero (item_lt : item -> item -> bool) g pt :
  res g < 0 -> forall fuel, nearest item_lt fuel g pt = OutOfFuel.
Proof.
  intros Hres fuel. rewrite nearest_unfold.
  rewrite (nearest_loop_negative g pt fuel (res g) Hres). reflexivity.
Qed.

End Facts.

Import Examples.

Lemma bounds_exact_witness :
  reachable doc_grid /\
  (In "A"%string (bounds doc_grid (MkRectangle 0 0 3 3)) <->
   exists pt, stored doc_grid pt "A"%string /\
              in_rect (MkRectangle 0 0 3 3) pt).
Proof.
  split; [exact doc_grid_reachable|].
  apply (bounds_exact doc_grid (MkRectangle 0 0 3 3) "A"%string).
  exact doc_grid_reachable.
Defined.

Lemma proximity_exact_witness :
  reachable doc_grid /\
  (In "A"%string (proximity doc_grid (2, 1) 2) <->
   exists pt, stored doc_grid pt "A"%string /\
              dist_le (get_points_dist (2, 1) pt) 2 = true).
Proof.
  split; [exact doc_grid_reachable|].
  apply (proximity_exact doc_grid (2, 1) 2 "A"%string).
  exact doc_grid_reachable.
Defined.

Lemma remove_outcome_witness :
  reachable doc_grid /\ in_grid doc_grid (1, 1) = true /\
  ((stored doc_grid (1, 1) "A"%string ->
    exists g', remove doc_grid "A"%string (1, 1) = (g', Returned "A"%string))
   /\
   (~ stored doc_grid (1, 1) "A"%string ->
    hash doc_grid !! __grid_loc doc_grid (1, 1) = None ->
    remove doc_grid "A"%string (1, 1) = (doc_grid, Raised KeyError)) /\
   (~ stored doc_grid (1, 1) "A"%string ->
    hash doc_grid !! __grid_loc doc_grid (1, 1) <> None ->
    remove doc_grid "A"%string (1, 1) = (doc_grid, Raised ValueError))).
Proof.
  split; [exact doc_grid_reachable|]. split; [reflexivity|].
  apply (remove_outcome doc_grid "A"%string (1, 1));
    [exact doc_grid_reachable | reflexivity].
Defined.

Lemma reachable_no_empty_bucket_witness :
  reachable doc_grid /\ no_empty_bucket doc_grid.
Proof.
  split; [exact doc_grid_reachable|].
  apply (reachable_no_empty_bucket doc_grid). exact doc_grid_reachable.
Defined.

Lemma doc_grid_cell :
  hash doc_grid !! (4, 4) = Some [((4, 4), "B"%string)].
Proof. vm_compute. reflexivity. Qed.

Lemma keys_within_ranges_witness :
  reachable doc_grid /\ 0 < res doc_grid /\
  hash doc_grid !! (4, 4) = Some [((4, 4), "B"%string)] /\
  (0 <= (4, 4).1 <= i_range doc_grid /\ 0 <= (4, 4).2 <= j_range doc_grid).
Proof.
  split; [exact doc_grid_reachable|]. split; [reflexivity|].
  split; [exact doc_grid_cell|].
  apply (keys_within_ranges doc_grid (4, 4) [((4, 4), "B"%string)]);
    [exact doc_grid_reachable | reflexivity | exact doc_grid_cell].
Defined.




Lemma nearest_hangs_below_zero_witness :
  res negative_grid < 0 /\
  forall fuel, nearest String.ltb fuel negative_grid (1, 1) = OutOfFuel.
Proof.
  split; [reflexivity|].
  apply (nearest_hangs_below_zero String.ltb negative_grid (1, 1)).
  reflexivity.
Defined.

End GridExtra.

(** * The point locators *)

Module LocatorSpec.




(** *** A grid and a locator over the same points *)

Lemma index_points_set_hash (points : list Grid.Point) :
  forall g, exists h, index_points g points = Grid.set_hash g h.
Proof.
  induction points as [|p ps IH]; intros g; simpl.
  - exists (Grid.hash g). destruct g; reflexivity.
  - destruct (GridSpec.add_set_hash g p p) as [h Hh].
    destruct (IH (Grid.add g p p).1) as [h' Hh'].
    exists h'. unfold index_points in *. simpl. rewrite Hh', Hh.
    reflexivity.
Qed.

Lemma index_points_reachable (points : list Grid.Point) :
  forall g, Grid.reachable g -> Grid.reachable (index_points g points).
Proof.
  induction points as [|p ps IH]; intros g Hr; simpl; [exact Hr|].
  apply (IH (Grid.add g p p).1). apply Grid.reach_add, Hr.
Qed.

Lemma index_points_stored (points : list Grid.Point) :
  forall g,
    Forall (fun p => Grid.in_grid g p = true) points ->
    forall p y,
      Grid.stored (index_points g points) p y <->
      Grid.stored g p y \/ (y = p /\ In p points).
Proof.
  induction points as [|p0 ps IH]; intros g Hall p y; simpl.
  - tauto.
  - apply Forall_cons_iff in Hall. destruct Hall as [H0 Hall].
    destruct (GridExtra.add_effect g p0 p0 H0) as [g' [Hg' [Hst _]]].
    change (index_points g (p0 :: ps))
      with (index_points (Grid.add g p0 p0).1 ps).
    rewrite Hg'. simpl. rewrite (IH g').
    + rewrite Hst. split.
      * intros [[Hs|[-> ->]]|[-> Hin]]; auto.
      * intros [Hs|[-> [<-|Hin]]]; auto.
    + destruct (GridSpec.add_set_hash g p0 p0) as [h Hh].
      rewrite Hg' in Hh. simpl in Hh. rewrite Hh.
      exact Hall.
Qed.

Lemma init_stores_nothing (bounds : Grid.Rectangle) (resolution : Z)
    (g : Grid.t Grid.Point) p y :
  Grid.__init__ bounds resolution = Returned g -> ~ Grid.stored g p y.
Proof.
  unfold Grid.__init__. destruct (resolution =? 0); [discriminate|].
  intros Hg. injection Hg as <-. intros [k [l [Hl _]]]. simpl in Hl.
  rewrite lookup_empty in Hl. discriminate.
Qed.

Lemma get_points_dist_sym (p q : Grid.Point) :
  Grid.get_points_dist p q = Grid.get_points_dist q p.
Proof. unfold Grid.get_points_dist. ring. Qed.

(** X17.  A new grid to which points inside its bounds are added, each as
    the item at its own place, and a [PointLocator] over the same points
    return the same points for [proximity]. *)
Theorem grid_locator_proximity (bounds : Grid.Rectangle) (resolution : Z)
    (g : Grid.t Grid.Point) (points : list Grid.Point)
    (origin : Grid.Point) (r : Z) :
  Grid.__init__ bounds resolution = Returned g ->
  Forall (fun p => Grid.in_grid g p = true) points ->
  forall p,
    In p (Grid.proximity (index_points g points) origin r) <->
    In p (PointLocator.proximity (PointLocator.__init__ points) origin r).
Proof.
  intros Hg Hall p.
  rewrite (GridExtra.proximity_iff (index_points g points) origin r p)
    by (apply index_points_reachable, (Grid.reach_init _ _ _ Hg)).
  unfold PointLocator.proximity, PointLocator.__init__,
    BruteForcePointLocator.proximity, BruteForcePointLocator.__init__.
  simpl. rewrite filter_In. split.
  - intros [pt [Hs Hd]]. apply (index_points_stored points g Hall) in Hs.
    destruct Hs as [Hs|[-> Hin]];
      [exfalso; exact (init_stores_nothing _ _ _ _ _ Hg Hs)|].
    rewrite get_points_dist_sym. auto.
  - intros [Hin Hd]. exists p. split.
    + apply (index_points_stored points g Hall). auto.
    + rewrite get_points_dist_sym. exact Hd.
Qed.

(** X18.  Such a grid and such a locator return the same points for a
    rectangle: [Grid.bounds] and [PointLocator.region] agree. *)
Theorem grid_locator_region (bounds : Grid.Rectangle) (resolution : Z)
    (g : Grid.t Grid.Point) (points : list Grid.Point)
    (rect : Grid.Rectangle) :
  Grid.__init__ bounds resolution = Returned g ->
  Forall (fun p => Grid.in_grid g p = true) points ->
  forall p,
    In p (Grid.bounds (index_points g points) rect) <->
    In p (PointLocator.region (PointLocator.__init__ points) rect).
Proof.
  intros Hg Hall p.
  rewrite (GridExtra.bounds_iff (index_points g points) rect p)
    by (apply index_points_reachable, (Grid.reach_init _ _ _ Hg)).
  unfold PointLocator.region, PointLocator.__init__,
    BruteForcePointLocator.region, BruteForcePointLocator.__init__.
  simpl. rewrite filter_In. unfold get_rectangle_point_intersect.
  assert (Hrect : forall q : Grid.Point,
            Grid.in_rect rect q <->
            (if (Grid.left rect <=? q.1) && (q.1 <=? Grid.right rect) &&
                (Grid.lower rect <=? q.2) && (q.2 <=? Grid.upper rect)
             then true else false) = true).
  { intros q. unfold Grid.in_rect.
    destruct ((Grid.left rect <=? q.1) && (q.1 <=? Grid.right rect) &&
              (Grid.lower rect <=? q.2) && (q.2 <=? Grid.upper rect))
      eqn:Hb.
    - rewrite !andb_true_iff, !Z.leb_le in Hb. tauto.
    - split; [|discriminate]. intros Hin.
      assert (Ht : (Grid.left rect <=? q.1) && (q.1 <=? Grid.right rect) &&
                   (Grid.lower rect <=? q.2) && (q.2 <=? Grid.upper rect)
                   = true)
        by (rewrite !andb_true_iff, !Z.leb_le; tauto).
      congruence. }
  split.
  - intros [pt [Hs Hd]]. apply (index_points_stored points g Hall) in Hs.
    destruct Hs as [Hs|[-> Hin]];
      [exfalso; exact (init_stores_nothing _ _ _ _ _ Hg Hs)|].
    split; [exact Hin|]. apply Hrect in Hd.
    destruct ((Grid.left rect <=? pt.1) && (pt.1 <=? Grid.right rect) &&
              (Grid.lower rect <=? pt.2) && (pt.2 <=? Grid.upper rect));
      [reflexivity | discriminate].
  - intros [Hin Hd]. exists p. split.
    + apply (index_points_stored points g Hall). auto.
    + apply Hrect.
      destruct ((Grid.left rect <=? p.1) && (p.1 <=? Grid.right rect) &&
                (Grid.lower rect <=? p.2) && (p.2 <=? Grid.upper rect));
        [reflexivity | discriminate].
Qed.


Import Examples.

Example doctest_locator_nearest :
  PointLocator.nearest (PointLocator.__init__ doc_points) (1, 1)
  = Returned (0, 0).
Proof. reflexivity. Qed.

Lemma doc_points_in_grid :
  Forall (fun p => Grid.in_grid point_grid p = true) doc_points.
Proof. repeat constructor. Qed.

Lemma grid_locator_proximity_witness :
  Grid.__init__ (Grid.MkRectangle 0 0 10 10) 1 = Returned point_grid /\
  Forall (fun p => Grid.in_grid point_grid p = true) doc_points /\
  forall p,
    In p (Grid.proximity (index_points point_grid doc_points) (1, 0) 2) <->
    In p (PointLocator.proximity (PointLocator.__init__ doc_points) (1, 0) 2).
Proof.
  split; [reflexivity|]. split; [exact doc_points_in_grid|].
  apply (grid_locator_proximity (Grid.MkRectangle 0 0 10 10) 1 point_grid
           doc_points (1, 0) 2); [reflexivity | exact doc_points_in_grid].
Defined.

Lemma grid_locator_region_witness :
  Grid.__init__ (Grid.MkRectangle 0 0 10 10) 1 = Returned point_grid /\
  Forall (fun p => Grid.in_grid point_grid p = true) doc_points /\
  forall p,
    In p (Grid.bounds (index_points point_grid doc_points)
            (Grid.MkRectangle 0 0 5 5)) <->
    In p (PointLocator.region (PointLocator.__init__ doc_points)
            (Grid.MkRectangle 0 0 5 5)).
Proof.
  split; [reflexivity|]. split; [exact doc_points_in_grid|].
  apply (grid_locator_region (Grid.MkRectangle 0 0 10 10) 1 point_grid
           doc_points (Grid.MkRectangle 0 0 5 5));
    [reflexivity | exact doc_points_in_grid].
Defined.

End LocatorSpec.
